(** * FamilyTreeApp: the tree layout engine of [src/App.tsx]

    The development embeds the three algorithmic functions of the file:
    [layoutTree] (lines 90-130), [getTreeBounds] (lines 225-234) and the
    [addChild] closure of [addFamilyMember] (lines 266-277).

    Numbers.  A JavaScript [number] is modelled as an exact rational ([Q]):
    the arithmetic of the layout only adds, halves and compares, and every
    value of the worked examples (multiples of 45) is exactly representable.
    [Infinity] and [-Infinity], which [getTreeBounds] uses as the start of
    its accumulator, are added on top of [Q] in the type [number].

    Two models of [layoutTree] are given.  The first is a pure function on
    inductive trees, in which the assignment [childLayout.x = ...] is a
    functional update of the record the recursive call has just returned.
    The second runs on an explicit heap of JavaScript objects and arrays, so
    that what is allocated, read and written is visible; it is shown to
    compute the result of the first. *)

From Stdlib Require Import QArith Qminmax Lqa ZArith Lia List String.
From stdpp Require Import base list.
Import ListNotations.

Local Open Scope Q_scope.

(** ** Data model *)

Local Unset Elimination Schemes.

(** [interface FamilyMember { id: string; name: string; children: FamilyMember[] }] *)
Inductive FamilyMember : Type :=
  mkMember { member_id : string;
             member_name : string;
             member_children : list FamilyMember }.

(** The object [layoutTree] returns: [{ ...node, x, y, width, children }]. *)
Inductive PositionedNode : Type :=
  mkNode { node_id : string;
           node_name : string;
           node_x : Q;
           node_y : Q;
           node_width : Q;
           node_children : list PositionedNode }.

Local Set Elimination Schemes.

(** Induction principles that give a hypothesis for every child. *)
Section Induction.
Variable P : FamilyMember -> Prop.
Hypothesis step : forall i n cs, Forall P cs -> P (mkMember i n cs).

Fixpoint FamilyMember_forall_ind (t : FamilyMember) : P t :=
  match t with
  | mkMember i n cs =>
      step i n cs
        ((fix go (l : list FamilyMember) : Forall P l :=
            match l with
            | [] => @List.Forall_nil _ P
            | c :: l' => @List.Forall_cons _ P c _ (FamilyMember_forall_ind c) (go l')
            end) cs)
  end.
End Induction.

Section InductionP.
Variable P : PositionedNode -> Prop.
Hypothesis step : forall i n x y w cs, Forall P cs -> P (mkNode i n x y w cs).

Fixpoint PositionedNode_forall_ind (t : PositionedNode) : P t :=
  match t with
  | mkNode i n x y w cs =>
      step i n x y w cs
        ((fix go (l : list PositionedNode) : Forall P l :=
            match l with
            | [] => @List.Forall_nil _ P
            | c :: l' => @List.Forall_cons _ P c _ (PositionedNode_forall_ind c) (go l')
            end) cs)
  end.
End InductionP.

(** ** Array helpers *)

(** [arr.map((e, i) => f(e, i))], the index starting at [i0]. *)
Section MapIndex.
Context {A B : Type}.
Variable f : nat -> A -> B.

Fixpoint mapi_from (i0 : nat) (l : list A) : list B :=
  match l with
  | [] => []
  | a :: l' => f i0 a :: mapi_from (S i0) l'
  end.
End MapIndex.

(** [arr.map((e, i) => f(e, i))] *)
Definition mapi {A B : Type} (f : nat -> A -> B) (l : list A) : list B :=
  mapi_from f 0 l.

(** [childLayout.x = v] on a record. *)
Definition set_x (n : PositionedNode) (v : Q) : PositionedNode :=
  mkNode (node_id n) (node_name n) v (node_y n) (node_width n) (node_children n).

(** [arr[i].x]; the two reads of the source sit in the branch where the
    array is not empty, see [children_index_in_range]. *)
Definition x_at (arr : list PositionedNode) (i : nat) : Q :=
  match nth_error arr i with
  | Some c => node_x c
  | None => 0
  end.

(** ** [layoutTree] *)

(** One turn of [childLayouts.forEach((childLayout, i) => { ... })]: the
    state is [currentX] and the array [children]. *)
Definition place (spacingX : Q) (st : Q * list PositionedNode)
    (childLayout : PositionedNode) : Q * list PositionedNode :=
  let '(currentX, children) := st in
  let childLayout' := set_x childLayout (currentX + node_width childLayout / 2) in
  (currentX + (node_width childLayout + spacingX * (1 # 2)),
   children ++ [childLayout']).

(** [childLayouts.reduce((sum, c) => sum + c.width, 0)] *)
Definition totalWidth (childLayouts : list PositionedNode) : Q :=
  fold_left (fun sum c => sum + node_width c) childLayouts 0.

(** The body of the [if (node.children.length > 0)] branch after the
    recursive calls: widths, packing, centring. *)
Definition arrange (i n : string) (x y spacingX : Q)
    (childLayouts : list PositionedNode) : PositionedNode :=
  let totalChildrenWidth := totalWidth childLayouts in
  let totalSpacing :=
    spacingX * (1 # 2) * inject_Z (Z.of_nat (length childLayouts) - 1) in
  let width := Qmax (totalChildrenWidth + totalSpacing) spacingX in
  let currentX := x - width / 2 in
  let children := snd (fold_left (place spacingX) childLayouts (currentX, [])) in
  let x' :=
    if Nat.eqb (length children) 1 then x_at children 0
    else (x_at children 0 + x_at children (length children - 1)) / 2 in
  mkNode i n x' y width children.

Fixpoint layoutTree (node : FamilyMember) (x y : Q)
    (level siblingIndex siblingsCount : nat) (spacingX spacingY : Q)
    {struct node} : PositionedNode :=
  match node with
  | mkMember i n cs =>
      if Nat.ltb 0 (length cs) then
        let childLayouts :=
          mapi (fun k child =>
                  layoutTree child 0 (y + spacingY) (S level) k (length cs)
                    spacingX spacingY) cs in
        arrange i n x y spacingX childLayouts
      else
        mkNode i n x y spacingX []
  end.

(** Every node of a positioned tree, the root first (pre-order). *)
Fixpoint nodes (p : PositionedNode) : list PositionedNode :=
  match p with
  | mkNode _ _ _ _ _ cs => p :: flat_map nodes cs
  end.


(** ** [getTreeBounds] *)

(** A JavaScript number that may be infinite. *)
Inductive number : Type :=
  | NegInfinity
  | Finite (q : Q)
  | Infinity.

Definition Math_min (a b : number) : number :=
  match a, b with
  | NegInfinity, _ | _, NegInfinity => NegInfinity
  | Infinity, v | v, Infinity => v
  | Finite p, Finite q => Finite (Qmin p q)
  end.

Definition Math_max (a b : number) : number :=
  match a, b with
  | Infinity, _ | _, Infinity => Infinity
  | NegInfinity, v | v, NegInfinity => v
  | Finite p, Finite q => Finite (Qmax p q)
  end.

Record Bounds : Type :=
  mkBounds { minX : number; maxX : number; minY : number; maxY : number }.

(** The default value of the parameter [bounds]. *)
Definition defaultBounds : Bounds :=
  mkBounds Infinity NegInfinity Infinity NegInfinity.

(** The four assignments to the fields of [bounds]. *)
Definition extend (bounds : Bounds) (node : PositionedNode) : Bounds :=
  mkBounds (Math_min (minX bounds) (Finite (node_x node)))
           (Math_max (maxX bounds) (Finite (node_x node + 100)))
           (Math_min (minY bounds) (Finite (node_y node)))
           (Math_max (maxY bounds) (Finite (node_y node + 80))).

(** The accumulator object is shared by every recursive call, which
    updates it in place and returns it: the state is threaded through the
    children in order.  [node.children] is an array, hence truthy. *)
Fixpoint getTreeBounds (node : PositionedNode) (bounds : Bounds) : Bounds :=
  match node with
  | mkNode _ _ _ _ _ cs =>
      fold_left (fun b child => getTreeBounds child b) cs (extend bounds node)
  end.

(** ** [addChild] *)

(** The closure [addChild] of [addFamilyMember]; [parentId] and [newMember]
    are the variables it captures. *)
Fixpoint addChild (parentId : string) (newMember : FamilyMember)
    (member : FamilyMember) : FamilyMember :=
  match member with
  | mkMember i n cs =>
      if String.eqb i parentId then mkMember i n (cs ++ [newMember])
      else mkMember i n (map (addChild parentId newMember) cs)
  end.

(** The ids that occur in a tree. *)
Fixpoint ids (t : FamilyMember) : list string :=
  match t with
  | mkMember i _ cs => i :: flat_map ids cs
  end.

(** The number of levels of a tree. *)
Fixpoint height (t : FamilyMember) : nat :=
  match t with
  | mkMember _ _ cs => S (list_max (map height cs))
  end.

(** * The heap model

    JavaScript objects and arrays live in a store and are passed by
    reference.  A location is an index into the store; allocation appends a
    cell.  A computation takes the store, may fail (a read of a missing
    field, a dangling reference, no fuel left), and returns a value with the
    new store. *)

(** A reference to an object or an array. *)
Abbreviation loc := nat.

(** A cell is an object with the fields [id], [name], [children] and
    optionally [x], [y] and [width] (a [FamilyMember] has none of the three,
    a layout node all three), or an array of references. *)
Inductive cell : Type :=
  | CObject (i n : string) (x y width : option Q) (children : loc)
  | CArray (elems : list loc).

(** The store: the cell at index [l] is what the reference [l] points to. *)
Abbreviation heap := (list cell).

(** Computations on the store that may fail. *)
Definition M (A : Type) : Type := heap -> option (A * heap).

(** Return a value, the store unchanged. *)
Definition ret {A} (a : A) : M A := fun h => Some (a, h).

(** A run-time error (or the end of the fuel). *)
Definition fail {A} : M A := fun _ => None.

(** Sequencing: [k] runs in the store [m] has left. *)
Definition bind {A B} (m : M A) (k : A -> M B) : M B :=
  fun h => match m h with
           | Some (a, h') => k a h'
           | None => None
           end.

Notation "'let*' x ':=' m 'in' k" := (bind m (fun x => k))
  (at level 10, x pattern, m at level 100, k at level 200).

(** [{ ... }] and [[ ... ]]: a new cell, at a location not used before. *)
Definition alloc (c : cell) : M loc :=
  fun h => Some (length h, h ++ [c]).

(** The cell a reference points to; a dangling reference fails. *)
Definition load (l : loc) : M cell :=
  fun h => match h !! l with
           | Some c => Some (c, h)
           | None => None
           end.

(** Overwrite the cell of an existing reference. *)
Definition store (l : loc) (c : cell) : M unit :=
  fun h => if Nat.ltb l (length h) then Some (tt, <[l := c]> h) else None.

(** [o.children] *)
Definition get_children (o : loc) : M loc :=
  let* c := load o in
  match c with
  | CObject _ _ _ _ _ a => ret a
  | CArray _ => fail
  end.

(** The fields [id] and [name] that the spread [...o] copies. *)
Definition get_id_name (o : loc) : M (string * string) :=
  let* c := load o in
  match c with
  | CObject i n _ _ _ _ => ret (i, n)
  | CArray _ => fail
  end.

(** [o.width], as a number. *)
Definition get_width (o : loc) : M Q :=
  let* c := load o in
  match c with
  | CObject _ _ _ _ (Some w) _ => ret w
  | _ => fail
  end.

(** [o.x], as a number. *)
Definition get_x (o : loc) : M Q :=
  let* c := load o in
  match c with
  | CObject _ _ (Some x) _ _ _ => ret x
  | _ => fail
  end.

(** [o.x = v] *)
Definition put_x (o : loc) (v : Q) : M unit :=
  let* c := load o in
  match c with
  | CObject i n _ y w a => store o (CObject i n (Some v) y w a)
  | CArray _ => fail
  end.

(** The elements of the array [a]. *)
Definition get_elems (a : loc) : M (list loc) :=
  let* c := load a in
  match c with
  | CArray elems => ret elems
  | CObject _ _ _ _ _ _ => fail
  end.

(** [a.length] *)
Definition array_length (a : loc) : M nat :=
  let* elems := get_elems a in ret (length elems).

(** [a[k]], which has to exist. *)
Definition array_get (a : loc) (k : nat) : M loc :=
  let* elems := get_elems a in
  match elems !! k with
  | Some e => ret e
  | None => fail
  end.

(** [a.push(e)] *)
Definition push (a : loc) (e : loc) : M unit :=
  let* elems := get_elems a in store a (CArray (elems ++ [e])).

(** The calls [f(e, k)] of [a.map((e, k) => f(e, k))], in order; the array
    that holds the results is allocated by the caller, after them. *)
Section MapM.
Context {A B : Type}.
Variable f : nat -> A -> M B.

Fixpoint mapM_from (i0 : nat) (l : list A) : M (list B) :=
  match l with
  | [] => ret []
  | a :: l' =>
      let* b := f i0 a in
      let* bs := mapM_from (S i0) l' in
      ret (b :: bs)
  end.
End MapM.

(** [a.reduce((sum, c) => sum + c.width, sum0)] on the elements of [a]. *)
Fixpoint reduce_widths (elems : list loc) (sum : Q) : M Q :=
  match elems with
  | [] => ret sum
  | c :: rest => let* w := get_width c in reduce_widths rest (sum + w)
  end.

(** The loop [childLayouts.forEach((childLayout, i) => { ... })] on the
    elements of [childLayouts]; [children] is the array being filled. *)
Fixpoint forEach_place (spacingX : Q) (children : loc) (elems : list loc)
    (currentX : Q) : M Q :=
  match elems with
  | [] => ret currentX
  | childLayout :: rest =>
      let* w := get_width childLayout in
      let* _ := put_x childLayout (currentX + w / 2) in
      let* _ := push children childLayout in
      let* w' := get_width childLayout in
      forEach_place spacingX children rest (currentX + (w' + spacingX * (1 # 2)))
  end.

(** [children[k].x] *)
Definition x_of (children : loc) (k : nat) : M Q :=
  let* e := array_get children k in get_x e.

(** The part of the branch [node.children.length > 0] that follows the
    recursive calls; [layouts] are the objects they returned, [children]
    is the empty array of the first line of the function. *)
Definition arrange_h (node children : loc) (x y spacingX : Q)
    (layouts : list loc) : M loc :=
  let* childLayouts := alloc (CArray layouts) in
  let* celems := get_elems childLayouts in
  let* totalChildrenWidth := reduce_widths celems 0 in
  let* len := array_length childLayouts in
  let totalSpacing := spacingX * (1 # 2) * inject_Z (Z.of_nat len - 1) in
  let width := Qmax (totalChildrenWidth + totalSpacing) spacingX in
  let* celems' := get_elems childLayouts in
  let* _ := forEach_place spacingX children celems' (x - width / 2) in
  let* n := array_length children in
  let* x' := (if Nat.eqb n 1 then x_of children 0
              else
                let* first := x_of children 0 in
                let* last := x_of children (n - 1) in
                ret ((first + last) / 2)) in
  let* (i, nm) := get_id_name node in
  alloc (CObject i nm (Some x') (Some y) (Some width) children).

(** The callback of [node.children.map]: it reads [node.children.length]
    again for the argument [siblingsCount]. *)
Definition layoutChild (rec : loc -> Q -> Q -> nat -> nat -> nat -> Q -> Q -> M loc)
    (node : loc) (y : Q) (level : nat) (spacingX spacingY : Q)
    (k : nat) (child : loc) : M loc :=
  let* nodeChildren := get_children node in
  let* count := array_length nodeChildren in
  rec child 0 (y + spacingY) (S level) k count spacingX spacingY.

(** [layoutTree] on the heap.  [fuel] bounds the depth of the recursion,
    which in the source is bounded by the depth of the tree only. *)
Fixpoint layoutTree_h (fuel : nat) (node : loc) (x y : Q)
    (level siblingIndex siblingsCount : nat) (spacingX spacingY : Q)
    {struct fuel} : M loc :=
  match fuel with
  | O => fail
  | S fuel' =>
      let* children := alloc (CArray []) in
      let* nodeChildren := get_children node in
      let* count := array_length nodeChildren in
      if Nat.ltb 0 count then
        let* elems := get_elems nodeChildren in
        let* layouts :=
          mapM_from
            (layoutChild (layoutTree_h fuel') node y level spacingX spacingY)
            0 elems in
        arrange_h node children x y spacingX layouts
      else
        let* (i, nm) := get_id_name node in
        alloc (CObject i nm (Some x) (Some y) (Some spacingX) children)
  end.

(** ** Trees in the heap *)

Local Unset Elimination Schemes.

(** The object at [l] and what it refers to form the logical tree [t]. *)
Inductive reprL (h : heap) : loc -> FamilyMember -> Prop :=
  | reprL_node l i n xo yo wo a elems cs :
      h !! l = Some (CObject i n xo yo wo a) ->
      h !! a = Some (CArray elems) ->
      Forall2 (reprL h) elems cs ->
      reprL h l (mkMember i n cs).

Local Set Elimination Schemes.

(** The object at [l] and what it refers to form the positioned tree [p],
    and all its cells lie between [lo] and [l]; the children occupy
    consecutive disjoint segments below [l]. *)
Inductive reprP (h : heap) : loc -> loc -> PositionedNode -> Prop :=
  | reprP_node lo l i n x y w a elems cs :
      h !! l = Some (CObject i n (Some x) (Some y) (Some w) a) ->
      h !! a = Some (CArray elems) ->
      (lo <= a)%nat -> (a < l)%nat ->
      reprPs h lo l elems cs ->
      reprP h lo l (mkNode i n x y w cs)
with reprPs (h : heap) : loc -> loc -> list loc -> list PositionedNode -> Prop :=
  | reprPs_nil lo hi : (lo <= hi)%nat -> reprPs h lo hi [] []
  | reprPs_cons lo hi e es c cs :
      reprP h lo e c ->
      reprPs h (S e) hi es cs ->
      reprPs h lo hi (e :: es) (c :: cs).

Scheme reprP_mut := Minimality for reprP Sort Prop
  with reprPs_mut := Minimality for reprPs Sort Prop.

Combined Scheme reprP_reprPs_ind from reprP_mut, reprPs_mut.

(** The cells that can be reached from a location. *)
Inductive reach (h : heap) : loc -> loc -> Prop :=
  | reach_here l : reach h l l
  | reach_children l i n xo yo wo a k :
      h !! l = Some (CObject i n xo yo wo a) ->
      reach h a k -> reach h l k
  | reach_element a elems e k :
      h !! a = Some (CArray elems) ->
      In e elems -> reach h e k -> reach h a k.

(** Reading a positioned tree back from the heap. *)
Fixpoint readLayout (fuel : nat) (h : heap) (l : loc) : option PositionedNode :=
  match fuel with
  | O => None
  | S fuel' =>
      match h !! l with
      | Some (CObject i n (Some x) (Some y) (Some w) a) =>
          match h !! a with
          | Some (CArray elems) =>
              match mapM (readLayout fuel' h) elems with
              | Some cs => Some (mkNode i n x y w cs)
              | None => None
              end
          | _ => None
          end
      | _ => None
      end
  end.

(** Storing a logical tree: the children first, then the array of their
    locations, then the object. *)
Fixpoint storeMember (t : FamilyMember) (h : heap) : loc * heap :=
  match t with
  | mkMember i n cs =>
      let '(ls, h1) :=
        (fix storeAll (cs : list FamilyMember) (h : heap) : list loc * heap :=
           match cs with
           | [] => ([], h)
           | c :: cs' =>
               let '(l, h') := storeMember c h in
               let '(ls, h'') := storeAll cs' h' in
               (l :: ls, h'')
           end) cs h in
      (S (length h1), h1 ++ [CArray ls; CObject i n None None None (length h1)])
  end.

(** Storing a list of trees one after the other: the loop inside
    [storeMember]. *)
Fixpoint storeAll (cs : list FamilyMember) (h : heap) : list loc * heap :=
  match cs with
  | [] => ([], h)
  | c :: cs' =>
      let '(l, h') := storeMember c h in
      let '(ls, h'') := storeAll cs' h' in
      (l :: ls, h'')
  end.

(** The number of levels of a positioned tree. *)
Fixpoint heightP (p : PositionedNode) : nat :=
  match p with
  | mkNode _ _ _ _ _ cs => S (list_max (map heightP cs))
  end.

(** * The rest of [App.tsx] *)

(** ** The viewport computed by [App] (lines 305-322) *)

(** A bound as a number of the layout; [None] for [Infinity] and
    [-Infinity], on which the arithmetic of [App] is not modelled (they do
    not occur, see [appLayout_defined]). *)
Definition finite (v : number) : option Q :=
  match v with
  | Finite q => Some q
  | _ => None
  end.

(** What [App] derives from [root] before it renders: [svgWidth],
    [svgHeight], the four numbers of the string [viewBox], and
    [treeLayout] ([null] without a root). *)
Record Viewport : Type :=
  mkViewport { svgWidth : Q;
               svgHeight : Q;
               viewBox : Q * Q * Q * Q;
               treeLayout : option PositionedNode }.

(** The body of [if (root) { ... }]; the last line is the assignment
    [treeLayout.x = (bounds.minX + bounds.maxX) / 2 - 50]. *)
Definition viewportOf (root : FamilyMember) : option Viewport :=
  let spacingX := 180 in
  let spacingY := 160 in
  let treeLayout := layoutTree root 0 80 0 0 1 spacingX spacingY in
  let bounds := getTreeBounds treeLayout defaultBounds in
  let padding := 80 in
  match finite (minX bounds), finite (maxX bounds),
        finite (minY bounds), finite (maxY bounds) with
  | Some minX, Some maxX, Some minY, Some maxY =>
      let svgWidth := Qmax (maxX - minX + padding * 2) 900 in
      let svgHeight := Qmax (maxY - minY + padding * 2) 700 in
      Some (mkViewport svgWidth svgHeight
              (minX - padding, minY - padding, svgWidth, svgHeight)
              (Some (set_x treeLayout ((minX + maxX) / 2 - 50))))
  | _, _, _, _ => None
  end.

(** The layout constants and the viewport of [App], for the state [root]. *)
Definition appLayout (root : option FamilyMember) : option Viewport :=
  match root with
  | Some r => viewportOf r
  | None => Some (mkViewport 900 700 (0, 0, 900, 700) None)
  end.

(** ** [addFamilyMember] (lines 257-284) *)

(** The four state variables of [App] that [addFamilyMember] writes. *)
Record AppState : Type :=
  mkAppState { app_root : option FamilyMember;
               app_inputName : string;
               app_showInput : bool;
               app_selectedParent : option string }.

(** The state of a freshly mounted [App]. *)
Definition initialState : AppState := mkAppState None "" false None.

(** [!parentId] for [parentId : string | null]: [null] and the empty string
    are falsy. *)
Definition falsy (parentId : option string) : bool :=
  match parentId with
  | None => true
  | Some s => String.eqb s ""
  end.

(** [addFamilyMember(parentId, name)].  [newId] is the value that
    [Math.random().toString(36).substr(2, 9)] takes in the call; the sound
    played at the end is left out. *)
Definition addFamilyMember (newId : string) (parentId : option string)
    (name : string) (st : AppState) : AppState :=
  let newMember := mkMember newId name [] in
  let root' :=
    match parentId with
    | Some pid =>
        if falsy parentId then Some newMember
        else match app_root st with
             | Some prevRoot => Some (addChild pid newMember prevRoot)
             | None => None
             end
    | None => Some newMember
    end in
  mkAppState root' "" false None.

(** [addChild] on the heap: no cell is written, the nodes on the way to the
    parent are copied ([{...member, children: ...}]) and the children of the
    parent are shared ([[...member.children, newMember]]). *)
Fixpoint addChild_h (fuel : nat) (parentId : string) (newMember : loc)
    (member : loc) {struct fuel} : M loc :=
  match fuel with
  | O => fail
  | S fuel' =>
      let* c := load member in
      match c with
      | CObject i n xo yo wo a =>
          if String.eqb i parentId then
            let* elems := get_elems a in
            let* a' := alloc (CArray (elems ++ [newMember])) in
            alloc (CObject i n xo yo wo a')
          else
            let* elems := get_elems a in
            let* copies :=
              mapM_from (fun _ child => addChild_h fuel' parentId newMember child)
                0 elems in
            let* a' := alloc (CArray copies) in
            alloc (CObject i n xo yo wo a')
      | CArray _ => fail
      end
  end.

(** ** [renderTree] (lines 133-223) *)

(** A branch [<path d="M a C b c d" />]: start, two control points, end. *)
Record Branch : Type :=
  mkBranch { branch_key : string;
             branch_start : Q * Q;
             branch_control1 : Q * Q;
             branch_control2 : Q * Q;
             branch_end : Q * Q }.

Local Unset Elimination Schemes.

(** The element [<g key={node.id}>] of one node: its branches, the leaf
    group translated to [(x, y)] with its gradient id and its text, the add
    button (given by the id its click passes to [onAdd]) and the input
    (given by its value and by the id Enter passes to [addFamilyMember])
    when they are rendered, and the groups of the children. *)
Inductive Rendered : Type :=
  mkG { g_key : string;
        g_branches : list Branch;
        g_translate : Q * Q;
        g_gradient : string;
        g_text : string;
        g_addButton : option string;
        g_input : option (string * string);
        g_children : list Rendered }.

Local Set Elimination Schemes.

(** [selectedParent === node.id] *)
Definition is_selected (selectedParent : option string) (i : string) : bool :=
  match selectedParent with
  | Some s => String.eqb s i
  | None => false
  end.

(** The branch from [node] to [child]. *)
Definition branchTo (node child : PositionedNode) : Branch :=
  mkBranch (node_id child ++ "-branch")%string
    (node_x node + 50, node_y node + 40)
    (node_x node + 50, node_y node + 80)
    (node_x child + 50, node_y child - 40)
    (node_x child + 50, node_y child).

(** [renderTree]; the callbacks [onAdd], [setInputName] and
    [addFamilyMember] are passed down unchanged and appear through the
    arguments the elements call them with. *)
Fixpoint renderTree (node : PositionedNode) (selectedParent : option string)
    (showInput : bool) (inputName : string) (isExporting : bool) : Rendered :=
  match node with
  | mkNode i n x y _ cs =>
      mkG i
        (map (branchTo node) cs)
        (x, y)
        ("leaf-gradient-" ++ i)%string
        n
        (if negb isExporting then Some i else None)
        (if is_selected selectedParent i && showInput then Some (inputName, i)
         else None)
        (map (fun child =>
                renderTree child selectedParent showInput inputName isExporting)
             cs)
  end.

(** * Vocabulary of the statements *)

(** A member without children. *)
Definition leafMember (i n : string) : FamilyMember := mkMember i n [].

(** A root with the two leaf children [a] and [b]. *)
Definition twoChildren (ri rn ai an bi bn : string) : FamilyMember :=
  mkMember ri rn [leafMember ai an; leafMember bi bn].

(** A root whose first child has a child of its own. *)
Definition grandchildTree : FamilyMember :=
  mkMember "r" "root"
    [mkMember "a" "first" [leafMember "a1" "grandchild"]; leafMember "b" "second"].

(** The packing loop, written as a function of the start position: the
    children it pushes. *)
Fixpoint placed (spacingX currentX : Q) (ps : list PositionedNode)
  : list PositionedNode :=
  match ps with
  | [] => []
  | p :: rest =>
      set_x p (currentX + node_width p / 2)
      :: placed spacingX (currentX + (node_width p + spacingX * (1 # 2))) rest
  end.

(** The value of [currentX] after the loop. *)
Fixpoint advanced (spacingX currentX : Q) (ps : list PositionedNode) : Q :=
  match ps with
  | [] => currentX
  | p :: rest => advanced spacingX (currentX + (node_width p + spacingX * (1 # 2))) rest
  end.





(** The layout of [twoChildren] used by the application: root anchored at
    [(0, 80)], [spacingX = 180], [spacingY = 160]. *)
Definition twoChildrenLayout : PositionedNode :=
  layoutTree (twoChildren "r" "root" "a" "first" "b" "second") 0 80 0 0 1 180 160.

(** Its two children. *)
Definition firstChild : PositionedNode :=
  nth 0 (node_children twoChildrenLayout) twoChildrenLayout.




(** [m] is the least element of the list [l]. *)
Definition is_min (m : Q) (l : list Q) : Prop :=
  In m l /\ forall v, In v l -> m <= v.

(** [m] is the greatest element of the list [l]. *)
Definition is_max (m : Q) (l : list Q) : Prop :=
  In m l /\ forall v, In v l -> v <= m.

(** [bounds] is the finite box of the nodes [l]: least [x], greatest
    [x + 100], least [y], greatest [y + 80]. *)
Definition box_of (l : list PositionedNode) (bounds : Bounds) : Prop :=
  exists x0 x1 y0 y1,
    bounds = mkBounds (Finite x0) (Finite x1) (Finite y0) (Finite y1)
    /\ is_min x0 (map node_x l)
    /\ is_max x1 (map (fun n => node_x n + 100) l)
    /\ is_min y0 (map node_y l)
    /\ is_max y1 (map (fun n => node_y n + 80) l).



(** What a call on the representation of [t] does: it returns, the store it
    leaves extends the store it found, and the location returned holds the
    layout of [t], made of cells allocated by the call. *)
Definition layout_ok (spacingX spacingY : Q) (t : FamilyMember) : Prop :=
  forall fuel h l x y level siblingIndex siblingsCount,
    reprL h l t -> (height t <= fuel)%nat ->
    exists ext l',
      layoutTree_h fuel l x y level siblingIndex siblingsCount spacingX spacingY h
      = Some (l', h ++ ext)
      /\ reprP (h ++ ext) (length h) l'
           (layoutTree t x y level siblingIndex siblingsCount spacingX spacingY).

(** A root with two children that have one child each. *)
Definition cousinsTree : FamilyMember :=
  mkMember "r" "root"
    [mkMember "a" "first" [leafMember "a1" "cousin"];
     mkMember "b" "second" [leafMember "b1" "cousin"]].

(** A heap with [grandchildTree] in it. *)
Definition exampleHeap : heap := snd (storeMember grandchildTree []).

(** The location of the root of [grandchildTree] in [exampleHeap]. *)
Definition exampleRoot : loc := fst (storeMember grandchildTree []).

(** The same heap after a first call of [layoutTree]. *)
Definition exampleHeapAfter : heap :=
  match layoutTree_h 3 exampleRoot 0 80 0 0 1 180 160 exampleHeap with
  | Some (_, h) => h
  | None => []
  end.

(** Forgetting the geometry of a positioned tree. *)
Fixpoint erase (p : PositionedNode) : FamilyMember :=
  match p with
  | mkNode i n _ _ _ cs => mkMember i n (map erase cs)
  end.


(** The first member, in pre-order, whose id is [i]. *)
Fixpoint findMember (i : string) (t : FamilyMember) : option FamilyMember :=
  match t with
  | mkMember j _ cs =>
      if String.eqb j i then Some t
      else
        (fix first (cs : list FamilyMember) : option FamilyMember :=
           match cs with
           | [] => None
           | c :: cs' =>
               match findMember i c with
               | Some m => Some m
               | None => first cs'
               end
           end) cs
  end.

(** The same search over a list of trees. *)
Fixpoint findFirst (i : string) (cs : list FamilyMember) : option FamilyMember :=
  match cs with
  | [] => None
  | c :: cs' =>
      match findMember i c with
      | Some m => Some m
      | None => findFirst i cs'
      end
  end.

(** A member with one more child, at the end. *)
Definition withChild (newMember m : FamilyMember) : FamilyMember :=
  mkMember (member_id m) (member_name m) (member_children m ++ [newMember]).

(** The ids of the root are pairwise distinct, when there is a root. *)
Definition unique_ids (st : AppState) : Prop :=
  match app_root st with
  | Some r => List.NoDup (ids r)
  | None => True
  end.

(** [i] is the id of no member of the current tree. *)
Definition fresh_id (i : string) (st : AppState) : Prop :=
  match app_root st with
  | Some r => ~ In i (ids r)
  | None => True
  end.

(** The states [App] reaches by calls of [addFamilyMember] in which the
    random id is new. *)
Inductive reachable : AppState -> Prop :=
  | reachable_initial : reachable initialState
  | reachable_add st newId parentId name :
      reachable st -> fresh_id newId st ->
      reachable (addFamilyMember newId parentId name st).

(** The groups of a rendered tree, the root first. *)
Fixpoint groups (g : Rendered) : list Rendered :=
  match g with
  | mkG _ _ _ _ _ _ _ cs => g :: flat_map groups cs
  end.

(** The footprint of [n], 100 by 80 with [(x, y)] as its top left corner,
    lies in the rectangle [(bx, by, bw, bh)] (corner and size) with
    [margin] to spare on every side. *)
Definition footprint_inside (margin : Q) (box : Q * Q * Q * Q)
    (n : PositionedNode) : Prop :=
  let '(bx, by', bw, bh) := box in
  bx + margin <= node_x n
  /\ node_x n + 100 <= bx + bw - margin
  /\ by' + margin <= node_y n
  /\ node_y n + 80 <= by' + bh - margin.




(** The names that occur in a tree, in pre-order. *)
Fixpoint names (t : FamilyMember) : list string :=
  match t with
  | mkMember _ n cs => n :: flat_map names cs
  end.

(** What a call of [addChild_h] on the representation of [t] does: it
    returns, the store it leaves extends the store it found, and the
    location returned holds the tree [addChild] computes. *)
Definition addChild_ok (parentId : string) (newMember t : FamilyMember) : Prop :=
  forall fuel h l ln,
    reprL h l t -> reprL h ln newMember -> (height t <= fuel)%nat ->
    exists ext l',
      addChild_h fuel parentId ln l h = Some (l', h ++ ext)
      /\ reprL (h ++ ext) l' (addChild parentId newMember t)
      /\ (length h <= l')%nat.

(** A natural number as a [Q]. *)
Definition qn (n : nat) : Q := inject_Z (Z.of_nat n).



(** The order of the numbers, infinite ones included. *)
Definition num_le (a b : number) : Prop :=
  match a, b with
  | NegInfinity, _ | _, Infinity => True
  | Finite p, Finite q => p <= q
  | _, _ => False
  end.

(** The box [inner] lies in the box [outer]. *)
Definition box_within (inner outer : Bounds) : Prop :=
  num_le (minX outer) (minX inner) /\ num_le (maxX inner) (maxX outer)
  /\ num_le (minY outer) (minY inner) /\ num_le (maxY inner) (maxY outer).

(** The footprint of [n] lies in the box [bounds]. *)
Definition footprint_within (n : PositionedNode) (bounds : Bounds) : Prop :=
  num_le (minX bounds) (Finite (node_x n))
  /\ num_le (Finite (node_x n + 100)) (maxX bounds)
  /\ num_le (minY bounds) (Finite (node_y n))
  /\ num_le (Finite (node_y n + 80)) (maxY bounds).


(** [exampleHeap] with a new member in it, and the location of that
    member. *)
Definition exampleHeapNew : heap :=
  snd (storeMember (leafMember "n" "new") exampleHeap).

(** The location of the new member in [exampleHeapNew]. *)
Definition exampleNew : loc :=
  fst (storeMember (leafMember "n" "new") exampleHeap).

(** * Properties of the pure model *)

(** Linear arithmetic over [Q], the halvings [_ / 2] written as products. *)
Ltac qlra := unfold Qdiv in *; change (/ 2) with (1 # 2) in *; lra.

(** ** Unfolding [layoutTree] *)


Lemma layoutTree_internal i n c cs x y level siblingIndex siblingsCount spacingX spacingY :
  layoutTree (mkMember i n (c :: cs)) x y level siblingIndex siblingsCount
    spacingX spacingY
  = arrange i n x y spacingX
      (mapi (fun k child =>
               layoutTree child 0 (y + spacingY) (S level) k (length (c :: cs))
                 spacingX spacingY) (c :: cs)).
Proof. reflexivity. Qed.

Lemma mapi_from_length {A B} (f : nat -> A -> B) i0 l :
  length (mapi_from f i0 l) = length l.
Proof. revert i0; induction l as [|a l IH]; intros i0; simpl; [|rewrite IH]; reflexivity. Qed.


Lemma fold_place spacingX ps : forall currentX acc,
  fold_left (place spacingX) ps (currentX, acc)
  = (advanced spacingX currentX ps, acc ++ placed spacingX currentX ps).
Proof.
  induction ps as [|p ps IH]; intros cx acc; simpl.
  - now rewrite app_nil_r.
  - rewrite IH, <- app_assoc. reflexivity.
Qed.

Lemma placed_length spacingX ps : forall cx, length (placed spacingX cx ps) = length ps.
Proof. induction ps as [|p ps IH]; intros cx; simpl; [|rewrite IH]; reflexivity. Qed.


Lemma arrange_children i n x y spacingX childLayouts :
  node_children (arrange i n x y spacingX childLayouts)
  = placed spacingX (x - node_width (arrange i n x y spacingX childLayouts) / 2)
      childLayouts.
Proof. unfold arrange. rewrite fold_place. reflexivity. Qed.


(** Inside the branch [node.children.length > 0] the array [children] has
    as many elements as [node.children]: the reads [children[0]] and
    [children[children.length - 1]] are in range. *)
Lemma children_index_in_range i n c cs x y level siblingIndex siblingsCount
    spacingX spacingY :
  let r := layoutTree (mkMember i n (c :: cs)) x y level siblingIndex siblingsCount
             spacingX spacingY in
  length (node_children r) = length (c :: cs)
  /\ is_Some (nth_error (node_children r) 0)
  /\ is_Some (nth_error (node_children r) (length (node_children r) - 1)).
Proof.
  intros r. subst r. rewrite layoutTree_internal, arrange_children, placed_length.
  unfold mapi. rewrite mapi_from_length. split; [reflexivity|].
  remember (placed _ _ _) as l eqn:El.
  assert (Hl : length l = S (length cs)).
  { subst l. rewrite placed_length, mapi_from_length. reflexivity. }
  split.
  - destruct l; [discriminate|]. simpl. eauto.
  - simpl. rewrite Nat.sub_0_r.
    destruct (nth_error l (length cs)) eqn:E; [eauto|].
    apply nth_error_None in E. lia.
Qed.

(** ** Properties of every node of a layout *)

Lemma nodes_unfold p : nodes p = p :: flat_map nodes (node_children p).
Proof. destruct p; reflexivity. Qed.

Lemma nodes_set_x p v :
  nodes (set_x p v) = set_x p v :: flat_map nodes (node_children p).
Proof. reflexivity. Qed.



(** *** Sibling separation *)







(** *** Widths *)










(** *** Levels *)


Lemma in_flat_map_placed {B} (f : PositionedNode -> list B) spacingX ps n :
  forall cx, In n (flat_map f (placed spacingX cx ps)) ->
  exists p v, In p ps /\ In n (f (set_x p v)).
Proof.
  induction ps as [|p ps IH]; intros cx; simpl; [intros []|].
  intros H. apply in_app_or in H. destruct H as [H|H].
  - exists p. eexists. split; [now left|exact H].
  - destruct (IH _ H) as (q & v & Hq & Hn). exists q, v. split; [now right|exact Hn].
Qed.

Lemma in_mapi_from {A B} (f : nat -> A -> B) l b :
  forall i0, In b (mapi_from f i0 l) -> exists k a, In a l /\ b = f k a.
Proof.
  induction l as [|a l IH]; intros i0; simpl; [intros []|].
  intros [<-|H].
  - exists i0, a. split; [now left|reflexivity].
  - destruct (IH _ H) as (k & a' & Ha & ->). exists k, a'. split; [now right|reflexivity].
Qed.

Lemma inject_Z_succ d : inject_Z (Z.of_nat (S d)) == inject_Z (Z.of_nat d) + 1.
Proof. rewrite Nat2Z.inj_succ. unfold Z.succ. rewrite inject_Z_plus. reflexivity. Qed.



(** *** Centring *)


(** C2 (the code departs from it).  On [grandchildTree], laid out as the
    application does, the first child of the root has [x = -135] while its
    only child has [x = 0]: the node is not centred over its child. *)
Theorem layoutTree_inner_node_off_centre :
  exists a a1,
    nth_error (node_children (layoutTree grandchildTree 0 80 0 0 1 180 160)) 0
    = Some a
    /\ node_children a = [a1]
    /\ node_x a == -135
    /\ node_x a1 == 0
    /\ ~ node_x a == node_x a1.
Proof.
  eexists. eexists. split; [reflexivity|]. split; [reflexivity|].
  repeat split; try (vm_compute; reflexivity).
  vm_compute. discriminate.
Qed.

(** The children of two siblings are packed around the same placeholder
    abscissa and stay there: the two cousins of [cousinsTree] get the same
    position. *)
Lemma layoutTree_cousins_coincide :
  exists a b a1 b1,
    node_children (layoutTree cousinsTree 0 80 0 0 1 180 160) = [a; b]
    /\ node_children a = [a1] /\ node_children b = [b1]
    /\ node_x a == -135 /\ node_x b == 135
    /\ node_x a1 == 0 /\ node_x b1 == 0
    /\ node_y a1 == 400 /\ node_y b1 == 400.
Proof.
  do 4 eexists. do 3 (split; [reflexivity|]).
  repeat split; vm_compute; reflexivity.
Qed.

(** *** The worked examples of the specification *)

(** C4.  A root with two leaf children, laid out at [(0, 80)] with
    [spacingX = 180] and [spacingY = 160]: both children have [y = 240] and
    width 180, the root has width 450, the children are at [x = -135] and
    [x = 135] in input order, and the root is at [x = 0]. *)
Theorem layoutTree_two_children ri rn ai an bi bn level siblingIndex siblingsCount :
  exists rx rw ax ay aw bx by' bw,
    layoutTree (twoChildren ri rn ai an bi bn) 0 80 level siblingIndex siblingsCount
      180 160
    = mkNode ri rn rx 80 rw [mkNode ai an ax ay aw []; mkNode bi bn bx by' bw []]
    /\ ay == 240 /\ by' == 240
    /\ aw == 180 /\ bw == 180
    /\ rw == 450
    /\ ax == -135 /\ bx == 135
    /\ rx == 0.
Proof.
  do 8 eexists. split; [reflexivity|].
  repeat split; vm_compute; reflexivity.
Qed.

(** C6.  A node without children is returned with the [x] and [y] of the
    call, width [spacingX] and no children; at [(0, 80)] with
    [spacingX = 180] this is [{x: 0, y: 80, width: 180, children: []}]. *)
Theorem layoutTree_single_node i n :
  (forall x y level siblingIndex siblingsCount spacingX spacingY,
      layoutTree (mkMember i n []) x y level siblingIndex siblingsCount
        spacingX spacingY
      = mkNode i n x y spacingX [])
  /\ (forall level siblingIndex siblingsCount spacingY,
        layoutTree (mkMember i n []) 0 80 level siblingIndex siblingsCount
          180 spacingY
        = mkNode i n 0 80 180 []).
Proof. split; intros; reflexivity. Qed.

(** ** [getTreeBounds] *)

(** The traversal visits the nodes in pre-order, extending the accumulator
    at each. *)
Lemma getTreeBounds_nodes p : forall bounds,
  getTreeBounds p bounds = fold_left extend (nodes p) bounds.
Proof.
  induction p as [i n x y w cs IH] using PositionedNode_forall_ind.
  intros bounds. simpl.
  generalize (extend bounds (mkNode i n x y w cs)). clear bounds.
  induction IH as [|c cs Hc _ IHcs]; intros b; simpl.
  - reflexivity.
  - rewrite fold_left_app, <- Hc. apply IHcs.
Qed.

Lemma Qmin_cases p q : (Qmin p q = p /\ p <= q) \/ (Qmin p q = q /\ q <= p).
Proof.
  unfold Qmin, GenericMinMax.gmin.
  destruct (p ?= q) eqn:E.
  - left. split; [reflexivity|]. apply Qeq_alt in E. lra.
  - left. split; [reflexivity|]. apply Qlt_alt in E. lra.
  - right. split; [reflexivity|]. apply Qgt_alt in E. lra.
Qed.

Lemma Qmax_cases p q : (Qmax p q = p /\ q <= p) \/ (Qmax p q = q /\ p <= q).
Proof.
  unfold Qmax, GenericMinMax.gmax.
  destruct (p ?= q) eqn:E.
  - left. split; [reflexivity|]. apply Qeq_alt in E. lra.
  - right. split; [reflexivity|]. apply Qlt_alt in E. lra.
  - left. split; [reflexivity|]. apply Qgt_alt in E. lra.
Qed.

Lemma is_min_snoc m l v : is_min m l -> is_min (Qmin m v) (l ++ [v]).
Proof.
  intros [Hin Hle]. destruct (Qmin_cases m v) as [[-> Hmv]|[-> Hvm]]; split.
  - apply in_or_app. now left.
  - intros u Hu. apply in_app_or in Hu. destruct Hu as [Hu|[<-|[]]]; auto.
  - apply in_or_app. right. now left.
  - intros u Hu. apply in_app_or in Hu. destruct Hu as [Hu|[<-|[]]]; [|lra].
    specialize (Hle u Hu). lra.
Qed.

Lemma is_max_snoc m l v : is_max m l -> is_max (Qmax m v) (l ++ [v]).
Proof.
  intros [Hin Hle]. destruct (Qmax_cases m v) as [[-> Hmv]|[-> Hvm]]; split.
  - apply in_or_app. now left.
  - intros u Hu. apply in_app_or in Hu. destruct Hu as [Hu|[<-|[]]]; auto.
  - apply in_or_app. right. now left.
  - intros u Hu. apply in_app_or in Hu. destruct Hu as [Hu|[<-|[]]]; [|lra].
    specialize (Hle u Hu). lra.
Qed.

Lemma is_min_single v : is_min v [v].
Proof. split; [now left|]. intros u [<-|[]]. lra. Qed.

Lemma is_max_single v : is_max v [v].
Proof. split; [now left|]. intros u [<-|[]]. lra. Qed.

Lemma box_of_first n : box_of [n] (extend defaultBounds n).
Proof.
  exists (node_x n), (node_x n + 100), (node_y n), (node_y n + 80).
  split; [reflexivity|].
  repeat split; simpl; auto; intros u [<-|[]]; lra.
Qed.

Lemma box_of_extend l bounds n : box_of l bounds -> box_of (l ++ [n]) (extend bounds n).
Proof.
  intros (x0 & x1 & y0 & y1 & -> & Hx0 & Hx1 & Hy0 & Hy1).
  exists (Qmin x0 (node_x n)), (Qmax x1 (node_x n + 100)),
         (Qmin y0 (node_y n)), (Qmax y1 (node_y n + 80)).
  split; [reflexivity|].
  rewrite !map_app. simpl.
  repeat apply conj;
    first [apply is_min_snoc; assumption | apply is_max_snoc; assumption].
Qed.

Lemma box_of_fold l : forall seen bounds,
  box_of seen bounds -> box_of (seen ++ l) (fold_left extend l bounds).
Proof.
  induction l as [|n l IH]; intros seen bounds H; simpl.
  - now rewrite app_nil_r.
  - replace (seen ++ n :: l) with ((seen ++ [n]) ++ l)
      by (rewrite <- app_assoc; reflexivity).
    apply IH, box_of_extend, H.
Qed.

(** Any traversal of a non-empty list of nodes yields their box. *)
Lemma box_of_traversal n l : box_of (n :: l) (fold_left extend (n :: l) defaultBounds).
Proof. simpl. apply (box_of_fold l [n]), box_of_first. Qed.







(** ** [addChild] *)

Lemma map_id_on {A} (f : A -> A) (l : list A) :
  Forall (fun a => f a = a) l -> map f l = l.
Proof. induction 1 as [|a l Ha _ IH]; simpl; [|rewrite Ha, IH]; reflexivity. Qed.

(** C10.  When [parentId] is the id of no node of the tree, [addChild]
    returns a tree equal to its argument: same ids, names and children, in
    the same order, nothing added. *)
Theorem addChild_unknown_parent (parentId : string) (newMember : FamilyMember) :
  forall member,
    ~ In parentId (ids member) ->
    addChild parentId newMember member = member.
Proof.
  intros member.
  induction member as [i n cs IH] using FamilyMember_forall_ind.
  intros Hnot. simpl in *.
  destruct (String.eqb_spec i parentId) as [E|E].
  - exfalso. apply Hnot. now left.
  - f_equal. apply map_id_on.
    rewrite List.Forall_forall in *. intros c Hc. apply IH; [exact Hc|].
    intros Hin. apply Hnot. right. apply in_flat_map. exists c. split; assumption.
Qed.

Lemma addChild_unknown_parent_witness :
  addChild "zzz" (leafMember "n" "new") grandchildTree = grandchildTree.
Proof.
  apply (addChild_unknown_parent "zzz" (leafMember "n" "new") grandchildTree).
  simpl. intros H.
  repeat (destruct H as [H|H]; [discriminate H|]). exact H.
Defined.

(** * Properties of the heap model *)

Local Open Scope nat_scope.

(** ** The primitive operations *)

Lemma bind_eq {A B} (m : M A) (k : A -> M B) h a h' :
  m h = Some (a, h') -> bind m k h = k a h'.
Proof. intros H. unfold bind. rewrite H. reflexivity. Qed.

Ltac step H := rewrite (bind_eq _ _ _ _ _ H); cbn beta iota.

Lemma load_ok h l c : h !! l = Some c -> load l h = Some (c, h).
Proof. intros H. unfold load. rewrite H. reflexivity. Qed.

Lemma get_children_ok h l i n xo yo wo a :
  h !! l = Some (CObject i n xo yo wo a) -> get_children l h = Some (a, h).
Proof. intros H. unfold get_children. step (load_ok _ _ _ H). reflexivity. Qed.

Lemma get_id_name_ok h l i n xo yo wo a :
  h !! l = Some (CObject i n xo yo wo a) -> get_id_name l h = Some ((i, n), h).
Proof. intros H. unfold get_id_name. step (load_ok _ _ _ H). reflexivity. Qed.

Lemma get_width_ok h l i n xo yo w a :
  h !! l = Some (CObject i n xo yo (Some w) a) -> get_width l h = Some (w, h).
Proof. intros H. unfold get_width. step (load_ok _ _ _ H). reflexivity. Qed.

Lemma get_x_ok h l i n x yo wo a :
  h !! l = Some (CObject i n (Some x) yo wo a) -> get_x l h = Some (x, h).
Proof. intros H. unfold get_x. step (load_ok _ _ _ H). reflexivity. Qed.

Lemma get_elems_ok h a elems :
  h !! a = Some (CArray elems) -> get_elems a h = Some (elems, h).
Proof. intros H. unfold get_elems. step (load_ok _ _ _ H). reflexivity. Qed.

Lemma array_length_ok h a elems :
  h !! a = Some (CArray elems) -> array_length a h = Some (length elems, h).
Proof. intros H. unfold array_length. step (get_elems_ok _ _ _ H). reflexivity. Qed.

Lemma array_get_ok h a elems k e :
  h !! a = Some (CArray elems) -> elems !! k = Some e ->
  array_get a k h = Some (e, h).
Proof.
  intros H He. unfold array_get. step (get_elems_ok _ _ _ H).
  rewrite He. reflexivity.
Qed.

Lemma store_ok h l c c' :
  h !! l = Some c -> store l c' h = Some (tt, <[l := c']> h).
Proof.
  intros H. unfold store. apply lookup_lt_Some in H.
  destruct (Nat.ltb_spec l (length h)); [reflexivity|lia].
Qed.

Lemma put_x_ok h l i n xo yo wo a v :
  h !! l = Some (CObject i n xo yo wo a) ->
  put_x l v h = Some (tt, <[l := CObject i n (Some v) yo wo a]> h).
Proof.
  intros H. unfold put_x. step (load_ok _ _ _ H). eapply store_ok, H.
Qed.

Lemma push_ok h a elems e :
  h !! a = Some (CArray elems) ->
  push a e h = Some (tt, <[a := CArray (elems ++ [e])]> h).
Proof.
  intros H. unfold push. step (get_elems_ok _ _ _ H). eapply store_ok, H.
Qed.

Lemma alloc_ok h c : alloc c h = Some (length h, h ++ [c]).
Proof. reflexivity. Qed.

Lemma lookup_alloc (h : heap) c : (h ++ [c]) !! length h = Some c.
Proof. apply list_lookup_middle. reflexivity. Qed.

Lemma lookup_alloc2 (h : heap) c d :
  (h ++ [c; d]) !! length h = Some c /\ (h ++ [c; d]) !! S (length h) = Some d.
Proof.
  split; rewrite lookup_app_r by lia.
  - rewrite Nat.sub_diag. reflexivity.
  - replace (S (length h) - length h) with 1 by lia. reflexivity.
Qed.

(** A store that agrees with [h] below [length h] extends [h]. *)
Lemma agree_extends (h h' : heap) :
  length h <= length h' ->
  (forall k, k < length h -> h' !! k = h !! k) ->
  exists ext, h' = h ++ ext.
Proof.
  intros Hlen Hagree. exists (drop (length h) h').
  rewrite <- (take_drop (length h) h') at 1. f_equal.
  apply list_eq. intros k.
  destruct (Nat.lt_ge_cases k (length h)) as [Hk|Hk].
  - rewrite lookup_take_lt by exact Hk. apply Hagree, Hk.
  - rewrite lookup_take_ge by exact Hk. symmetry. apply lookup_ge_None_2, Hk.
Qed.

(** ** Representation predicates *)

Lemma Forall2_impl_Forall {A B} (R R' : A -> B -> Prop) (l : list A) (k : list B) :
  Forall (fun b => forall a, R a b -> R' a b) k ->
  Forall2 R l k -> Forall2 R' l k.
Proof.
  intros Hk H. induction H as [|a b l k Hab _ IH]; constructor.
  - inversion Hk; subst. auto.
  - apply IH. inversion Hk; subst. assumption.
Qed.

Lemma reprL_inv h l i n cs :
  reprL h l (mkMember i n cs) ->
  exists xo yo wo a elems,
    h !! l = Some (CObject i n xo yo wo a)
    /\ h !! a = Some (CArray elems)
    /\ Forall2 (reprL h) elems cs.
Proof. intros H. inversion H; subst. eauto 10. Qed.

Lemma reprP_inv h lo l i n x y w cs :
  reprP h lo l (mkNode i n x y w cs) ->
  exists a elems,
    h !! l = Some (CObject i n (Some x) (Some y) (Some w) a)
    /\ h !! a = Some (CArray elems)
    /\ lo <= a /\ a < l
    /\ reprPs h lo l elems cs.
Proof. intros H. inversion H; subst. eauto 10. Qed.

Lemma reprPs_inv_nil h lo hi es : reprPs h lo hi es [] -> es = [] /\ lo <= hi.
Proof. intros H. inversion H; subst. auto. Qed.

Lemma reprPs_inv_cons h lo hi es c cs :
  reprPs h lo hi es (c :: cs) ->
  exists e es', es = e :: es' /\ reprP h lo e c /\ reprPs h (S e) hi es' cs.
Proof. intros H. inversion H; subst. eauto 10. Qed.

(** A logical tree stays where it is when the store grows. *)
Lemma reprL_extend t : forall h ext l,
  reprL h l t -> reprL (h ++ ext) l t.
Proof.
  induction t as [i n cs IH] using FamilyMember_forall_ind.
  intros h ext l H.
  destruct (reprL_inv _ _ _ _ _ H) as (xo & yo & wo & a & elems & Hl & Ha & Hcs).
  econstructor.
  - apply lookup_app_l_Some, Hl.
  - apply lookup_app_l_Some, Ha.
  - eapply Forall2_impl_Forall; [|exact Hcs].
    eapply Forall_impl; [exact IH|]. intros c Hc e He. apply Hc, He.
Qed.

Lemma reprL_length h elems cs :
  Forall2 (reprL h) elems cs -> length elems = length cs.
Proof. apply Forall2_length. Qed.

Lemma reprP_bounds h :
  (forall lo l p, reprP h lo l p -> lo < l /\ l < length h)
  /\ (forall lo hi es ps, reprPs h lo hi es ps -> lo <= hi /\ length es = length ps).
Proof.
  apply reprP_reprPs_ind.
  - intros lo l i n x y w a elems cs Hl Ha Hlo Hal _ _.
    apply lookup_lt_Some in Hl. lia.
  - intros lo hi Hle. split; [exact Hle|reflexivity].
  - intros lo hi e es c cs _ [He _] _ [Hes Hlen]. simpl. lia.
Qed.

(** Only the cells between [lo] and the root matter. *)
Lemma reprP_frame h h' :
  (forall lo l p, reprP h lo l p ->
     (forall k, lo <= k <= l -> h' !! k = h !! k) -> reprP h' lo l p)
  /\ (forall lo hi es ps, reprPs h lo hi es ps ->
     (forall k, lo <= k < hi -> h' !! k = h !! k) -> reprPs h' lo hi es ps).
Proof.
  apply reprP_reprPs_ind.
  - intros lo l i n x y w a elems cs Hl Ha Hlo Hal _ IH Hagree.
    econstructor.
    + rewrite Hagree by lia. exact Hl.
    + rewrite Hagree by lia. exact Ha.
    + exact Hlo.
    + exact Hal.
    + apply IH. intros k Hk. apply Hagree. lia.
  - intros lo hi Hle _. constructor. exact Hle.
  - intros lo hi e es c cs Hc IHc Hes IHes Hagree.
    apply (proj1 (reprP_bounds h)) in Hc.
    apply (proj2 (reprP_bounds h)) in Hes.
    constructor.
    + apply IHc. intros k Hk. apply Hagree. lia.
    + apply IHes. intros k Hk. apply Hagree. lia.
Qed.

Lemma reprP_extend h ext lo l p : reprP h lo l p -> reprP (h ++ ext) lo l p.
Proof.
  intros H. apply (proj1 (reprP_frame h (h ++ ext)) _ _ _ H).
  intros k Hk. apply lookup_app_l.
  apply (proj1 (reprP_bounds h)) in H. lia.
Qed.

Lemma reprPs_extend h ext lo hi es ps :
  hi <= length h -> reprPs h lo hi es ps -> reprPs (h ++ ext) lo hi es ps.
Proof.
  intros Hhi H. apply (proj2 (reprP_frame h (h ++ ext)) _ _ _ _ H).
  intros k Hk. apply lookup_app_l. lia.
Qed.

(** The segment may be widened. *)
Lemma reprP_widen h :
  (forall lo l p, reprP h lo l p -> forall lo', lo' <= lo -> reprP h lo' l p)
  /\ (forall lo hi es ps, reprPs h lo hi es ps ->
      forall lo' hi', lo' <= lo -> hi <= hi' -> reprPs h lo' hi' es ps).
Proof.
  apply reprP_reprPs_ind.
  - intros lo l i n x y w a elems cs Hl Ha Hlo Hal _ IH lo' Hlo'.
    econstructor; try eassumption; [lia|]. apply IH; lia.
  - intros lo hi Hle lo' hi' H1 H2. constructor. lia.
  - intros lo hi e es c cs _ IHc _ IHes lo' hi' H1 H2.
    constructor; [apply IHc; lia|apply IHes; lia].
Qed.

(** The assignment [o.x = v] on the root object of a positioned tree. *)
Lemma reprP_put_x h lo l i n x y w cs a v :
  reprP h lo l (mkNode i n x y w cs) ->
  h !! l = Some (CObject i n (Some x) (Some y) (Some w) a) ->
  reprP (<[l := CObject i n (Some v) (Some y) (Some w) a]> h) lo l
    (mkNode i n v y w cs).
Proof.
  intros H Hl.
  destruct (reprP_inv _ _ _ _ _ _ _ _ _ H) as (a' & elems & Hl' & Ha & Hlo & Hal & Hcs).
  rewrite Hl in Hl'. injection Hl' as <-.
  econstructor.
  - apply list_lookup_insert_eq. apply lookup_lt_Some in Hl. exact Hl.
  - rewrite list_lookup_insert_ne by lia. exact Ha.
  - exact Hlo.
  - exact Hal.
  - apply (proj2 (reprP_frame h _) _ _ _ _ Hcs).
    intros k Hk. apply list_lookup_insert_ne. lia.
Qed.

(** The cell of the root of a positioned tree. *)
Lemma reprP_root h lo l p :
  reprP h lo l p ->
  exists a, h !! l = Some (CObject (node_id p) (node_name p) (Some (node_x p))
                             (Some (node_y p)) (Some (node_width p)) a).
Proof.
  intros H. destruct p as [i n x y w cs].
  destruct (reprP_inv _ _ _ _ _ _ _ _ _ H) as (a & _ & Hl & _).
  exists a. exact Hl.
Qed.

Lemma reprPs_lookup h : forall ps lo hi es k p,
  reprPs h lo hi es ps -> nth_error ps k = Some p ->
  exists e lo', es !! k = Some e /\ reprP h lo' e p.
Proof.
  induction ps as [|q ps IH]; intros lo hi es k p H Hk.
  - destruct k; discriminate.
  - destruct (reprPs_inv_cons _ _ _ _ _ _ H) as (e & es' & -> & Hc & Hes).
    destruct k as [|k].
    + injection Hk as <-. exists e, lo. split; [reflexivity|exact Hc].
    + simpl in Hk. destruct (IH _ _ _ _ _ Hes Hk) as (e' & lo' & He' & Hp).
      exists e', lo'. split; [exact He'|exact Hp].
Qed.

(** ** The loops of [layoutTree] *)

Lemma reduce_widths_spec h : forall ps lo hi es sum,
  reprPs h lo hi es ps ->
  reduce_widths es sum h
  = Some (fold_left (fun sum c => (sum + node_width c)%Q) ps sum, h).
Proof.
  induction ps as [|p ps IH]; intros lo hi es sum H.
  - apply reprPs_inv_nil in H. destruct H as [-> _]. reflexivity.
  - destruct (reprPs_inv_cons _ _ _ _ _ _ H) as (e & es' & -> & Hp & Hps).
    destruct (reprP_root _ _ _ _ Hp) as [a Ha].
    simpl. step (get_width_ok _ _ _ _ _ _ _ _ Ha). eapply IH, Hps.
Qed.

Lemma x_of_spec h lo hi es ps a k :
  reprPs h lo hi es ps ->
  h !! a = Some (CArray es) ->
  k < length ps ->
  x_of a k h = Some (x_at ps k, h).
Proof.
  intros H Ha Hk. unfold x_at.
  destruct (nth_error ps k) as [p|] eqn:Ep.
  - destruct (reprPs_lookup _ _ _ _ _ _ _ H Ep) as (e & lo' & He & Hp).
    destruct (reprP_root _ _ _ _ Hp) as [a' Ha'].
    unfold x_of. step (array_get_ok _ _ _ _ _ Ha He).
    eapply get_x_ok, Ha'.
  - apply nth_error_None in Ep. lia.
Qed.

(** The packing loop: it writes the [x] of every child layout and pushes
    the child on [children]; nothing else changes. *)
Lemma forEach_place_spec spacingX a : forall ps es h lo hi acc cx,
  reprPs h lo hi es ps ->
  a < lo -> hi <= length h ->
  h !! a = Some (CArray acc) ->
  exists h',
    forEach_place spacingX a es cx h = Some (advanced spacingX cx ps, h')
    /\ length h' = length h
    /\ (forall k, k <> a -> k < lo \/ hi <= k -> h' !! k = h !! k)
    /\ h' !! a = Some (CArray (acc ++ es))
    /\ reprPs h' lo hi es (placed spacingX cx ps).
Proof.
  induction ps as [|p ps IH]; intros es h lo hi acc cx H Ha Hhi Hacc.
  - apply reprPs_inv_nil in H. destruct H as [-> Hle].
    exists h. simpl. rewrite app_nil_r.
    repeat split; auto. constructor. exact Hle.
  - destruct (reprPs_inv_cons _ _ _ _ _ _ H) as (e & es' & -> & Hp & Hps).
    destruct p as [i n x y w cs].
    destruct (reprP_inv _ _ _ _ _ _ _ _ _ Hp) as (ae & elems & He & _).
    pose proof (proj1 (reprP_bounds h) _ _ _ Hp) as [Hloe Heh].
    pose proof (proj2 (reprP_bounds h) _ _ _ _ Hps) as [Hehi _].
    set (v := (cx + w / 2)%Q).
    set (h1 := <[e := CObject i n (Some v) (Some y) (Some w) ae]> h).
    set (h2 := <[a := CArray (acc ++ [e])]> h1).
    assert (Hacc1 : h1 !! a = Some (CArray acc)).
    { unfold h1. rewrite list_lookup_insert_ne by lia. exact Hacc. }
    assert (He2 : h2 !! e = Some (CObject i n (Some v) (Some y) (Some w) ae)).
    { unfold h2, h1. rewrite list_lookup_insert_ne by lia.
      apply list_lookup_insert_eq. exact Heh. }
    assert (Hlen2 : length h2 = length h).
    { unfold h2, h1. rewrite !length_insert. reflexivity. }
    assert (Hps2 : reprPs h2 (S e) hi es' ps).
    { apply (proj2 (reprP_frame h h2) _ _ _ _ Hps). intros k Hk.
      unfold h2, h1. rewrite !list_lookup_insert_ne by lia. reflexivity. }
    assert (Hacc2 : h2 !! a = Some (CArray (acc ++ [e]))).
    { unfold h2. apply list_lookup_insert_eq. unfold h1. rewrite length_insert. lia. }
    destruct (IH es' h2 (S e) hi (acc ++ [e])
                (cx + (w + spacingX * (1 # 2)))%Q Hps2 ltac:(lia) ltac:(lia) Hacc2)
      as (h' & Hrun & Hlen & Hframe & Hacc' & Hps').
    exists h'. simpl.
    step (get_width_ok _ _ _ _ _ _ _ _ He).
    step (put_x_ok _ _ _ _ _ _ _ _ v He). fold h1.
    step (push_ok _ _ _ e Hacc1). fold h2.
    step (get_width_ok _ _ _ _ _ _ _ _ He2).
    split; [exact Hrun|].
    split; [lia|].
    split.
    { intros k Hka Hk. rewrite Hframe by lia.
      unfold h2, h1. rewrite !list_lookup_insert_ne by lia. reflexivity. }
    split.
    { rewrite Hacc', <- app_assoc. reflexivity. }
    constructor; [|exact Hps'].
    apply (proj1 (reprP_frame h1 h') lo e).
    + exact (reprP_put_x h lo e i n x y w cs ae v Hp He).
    + intros k Hk. rewrite Hframe by lia.
      unfold h2. rewrite list_lookup_insert_ne by lia. reflexivity.
Qed.

Lemma arrange_unfold i n x y spacingX L :
  arrange i n x y spacingX L
  = mkNode i n
      (if Nat.eqb (length L) 1
       then x_at (placed spacingX (x - node_width (arrange i n x y spacingX L) / 2) L) 0
       else ((x_at (placed spacingX
                      (x - node_width (arrange i n x y spacingX L) / 2) L) 0
              + x_at (placed spacingX
                        (x - node_width (arrange i n x y spacingX L) / 2) L)
                  (length L - 1)) / 2)%Q)
      y
      (node_width (arrange i n x y spacingX L))
      (placed spacingX (x - node_width (arrange i n x y spacingX L) / 2)%Q L).
Proof.
  unfold arrange at 1. rewrite fold_place. simpl snd. rewrite placed_length.
  reflexivity.
Qed.

(** The second half of the branch, on a store where the recursive calls
    have left the layouts [L] of the children at [ls]. *)
Lemma arrange_h_spec h lo hi node children i n xo yo wo an ls L x y spacingX :
  reprPs h lo hi ls L ->
  node < children -> children < lo -> hi <= length h ->
  h !! children = Some (CArray []) ->
  h !! node = Some (CObject i n xo yo wo an) ->
  0 < length L ->
  exists hf l',
    arrange_h node children x y spacingX ls h = Some (l', hf)
    /\ length h <= length hf
    /\ (forall k, k < children -> hf !! k = h !! k)
    /\ reprP hf children l' (arrange i n x y spacingX L).
Proof.
  intros HL Hnode Hch Hhi Hchildren Hn Hpos.
  pose proof (proj2 (reprP_bounds h) _ _ _ _ HL) as [Hlohi Hlen].
  set (h3 := h ++ [CArray ls]).
  assert (HL3 : reprPs h3 lo hi ls L) by (apply reprPs_extend; assumption).
  assert (Hcl : h3 !! length h = Some (CArray ls)) by apply lookup_alloc.
  assert (Hchildren3 : h3 !! children = Some (CArray []))
    by (apply lookup_app_l_Some, Hchildren).
  set (width := node_width (arrange i n x y spacingX L)).
  destruct (forEach_place_spec spacingX children L ls h3 lo hi [] (x - width / 2)%Q
              HL3 Hch ltac:(unfold h3; rewrite length_app; simpl; lia) Hchildren3)
    as (h4 & Hrun & Hlen4 & Hframe & Hch4 & HL4).
  simpl app in Hch4.
  assert (Hlen3 : length h3 = S (length h))
    by (unfold h3; rewrite length_app; simpl; lia).
  assert (Hn4 : h4 !! node = Some (CObject i n xo yo wo an)).
  { rewrite Hframe by lia. apply lookup_app_l_Some, Hn. }
  set (P := placed spacingX (x - width / 2)%Q L) in *.
  assert (HlenP : length P = length L) by apply placed_length.
  set (x' := if Nat.eqb (length L) 1 then x_at P 0
             else ((x_at P 0 + x_at P (length L - 1)) / 2)%Q).
  set (root := CObject i n (Some x') (Some y) (Some width) children).
  exists (h4 ++ [root]), (length h4).
  split.
  { unfold arrange_h.
    step (alloc_ok h (CArray ls)). fold h3.
    step (get_elems_ok _ _ _ Hcl).
    step (reduce_widths_spec _ _ _ _ _ 0%Q HL3).
    step (array_length_ok _ _ _ Hcl).
    step (get_elems_ok _ _ _ Hcl).
    rewrite Hlen.
    change (Qmax (fold_left (fun sum c => (sum + node_width c)%Q) L 0%Q
                  + spacingX * (1 # 2) * inject_Z (Z.of_nat (length L) - 1))
              spacingX) with width.
    step Hrun.
    step (array_length_ok _ _ _ Hch4).
    rewrite Hlen.
    assert (Hx' : (if Nat.eqb (length L) 1 then x_of children 0
                   else
                     let* first := x_of children 0 in
                     let* last := x_of children (length L - 1) in
                     ret ((first + last) / 2)%Q) h4 = Some (x', h4)).
    { unfold x'. destruct (Nat.eqb (length L) 1).
      - apply (x_of_spec _ _ _ _ _ _ _ HL4 Hch4). lia.
      - step (x_of_spec _ _ _ _ _ _ 0 HL4 Hch4 ltac:(lia)).
        step (x_of_spec _ _ _ _ _ _ (length L - 1) HL4 Hch4 ltac:(lia)).
        reflexivity. }
    step Hx'.
    step (get_id_name_ok _ _ _ _ _ _ _ _ Hn4).
    reflexivity. }
  split; [rewrite length_app; simpl; lia|].
  split.
  { intros k Hk. rewrite lookup_app_l by lia. rewrite Hframe by lia.
    apply lookup_app_l. lia. }
  rewrite arrange_unfold. fold width. fold P.
  econstructor.
  - apply lookup_alloc.
  - apply lookup_app_l_Some, Hch4.
  - lia.
  - lia.
  - apply reprPs_extend; [lia|].
    apply (proj2 (reprP_widen h4) _ _ _ _ HL4); lia.
Qed.

(** ** [layoutTree_h] computes [layoutTree] *)

Lemma layoutChild_ok rec h node i n xo yo wo an all y level spacingX spacingY k child :
  h !! node = Some (CObject i n xo yo wo an) ->
  h !! an = Some (CArray all) ->
  layoutChild rec node y level spacingX spacingY k child h
  = rec child 0%Q (y + spacingY)%Q (S level) k (length all) spacingX spacingY h.
Proof.
  intros Hn Ha. unfold layoutChild.
  step (get_children_ok _ _ _ _ _ _ _ _ Hn).
  step (array_length_ok _ _ _ Ha).
  reflexivity.
Qed.

Lemma mapM_layout_spec spacingX spacingY fuel node y level i n xo yo wo an all cs :
  Forall (layout_ok spacingX spacingY) cs ->
  Forall (fun c => height c <= fuel) cs ->
  forall elems i0 h,
    Forall2 (reprL h) elems cs ->
    h !! node = Some (CObject i n xo yo wo an) ->
    h !! an = Some (CArray all) ->
    exists ext ls,
      mapM_from (layoutChild (layoutTree_h fuel) node y level spacingX spacingY)
        i0 elems h
      = Some (ls, h ++ ext)
      /\ reprPs (h ++ ext) (length h) (length (h ++ ext)) ls
           (mapi_from
              (fun k child =>
                 layoutTree child 0 (y + spacingY) (S level) k (length all)
                   spacingX spacingY) i0 cs).
Proof.
  intros Hok Hfuel. induction Hok as [|c cs Hc _ IH]; intros elems i0 h Hrep Hn Ha.
  - apply Forall2_nil_inv_r in Hrep. subst elems.
    exists [], []. rewrite app_nil_r. split; [reflexivity|].
    constructor. lia.
  - apply Forall2_cons_inv_r in Hrep.
    destruct Hrep as (e & es & He & Hes & ->).
    inversion Hfuel as [|? ? Hfc Hfcs]; subst.
    destruct (Hc fuel h e 0%Q (y + spacingY)%Q (S level) i0 (length all) He Hfc)
      as (ext1 & l1 & Hrun1 & Hp1).
    set (h1 := h ++ ext1) in *.
    assert (Hes1 : Forall2 (reprL h1) es cs).
    { eapply Forall2_impl; [exact Hes|]. intros e' c' H'. apply reprL_extend, H'. }
    destruct (IH Hfcs es (S i0) h1 Hes1
                (lookup_app_l_Some _ _ _ _ Hn) (lookup_app_l_Some _ _ _ _ Ha))
      as (ext2 & ls & Hrun2 & Hps).
    exists (ext1 ++ ext2), (l1 :: ls).
    rewrite app_assoc. fold h1.
    split.
    + cbn [mapM_from].
      step (eq_trans (layoutChild_ok (layoutTree_h fuel) _ _ _ _ _ _ _ _ _
                        y level spacingX spacingY i0 e Hn Ha) Hrun1).
      step Hrun2. reflexivity.
    + simpl. pose proof (proj1 (reprP_bounds h1) _ _ _ Hp1) as [_ Hl1].
      constructor.
      * apply reprP_extend, Hp1.
      * apply (proj2 (reprP_widen _) _ _ _ _ Hps); lia.
Qed.

Lemma height_children i n cs fuel :
  height (mkMember i n cs) <= S fuel -> Forall (fun c => height c <= fuel) cs.
Proof.
  simpl. intros H. apply le_S_n in H.
  apply List.Forall_forall. intros c Hc.
  assert (Hmax : list_max (map height cs) <= fuel) by exact H.
  rewrite list_max_le in Hmax. rewrite List.Forall_forall in Hmax.
  apply Hmax, in_map, Hc.
Qed.

Lemma layoutTree_h_correct spacingX spacingY t : layout_ok spacingX spacingY t.
Proof.
  induction t as [i n cs IH] using FamilyMember_forall_ind.
  intros fuel h l x y level siblingIndex siblingsCount Hrep Hfuel.
  destruct fuel as [|fuel]; [simpl in Hfuel; lia|].
  apply height_children in Hfuel.
  destruct (reprL_inv _ _ _ _ _ Hrep) as (xo & yo & wo & an & elems & Hl & Han & Hcs).
  pose proof (lookup_lt_Some _ _ _ Hl) as Hllt.
  set (h1 := h ++ [CArray []]).
  assert (Hl1 : h1 !! l = Some (CObject i n xo yo wo an))
    by (apply lookup_app_l_Some, Hl).
  assert (Han1 : h1 !! an = Some (CArray elems))
    by (apply lookup_app_l_Some, Han).
  assert (Hch1 : h1 !! length h = Some (CArray [])) by apply lookup_alloc.
  assert (Hlen1 : length h1 = S (length h))
    by (unfold h1; rewrite length_app; simpl; lia).
  pose proof (reprL_length _ _ _ Hcs) as Hlen.
  cbn [layoutTree_h].
  step (alloc_ok h (CArray [])). fold h1.
  step (get_children_ok _ _ _ _ _ _ _ _ Hl1).
  step (array_length_ok _ _ _ Han1).
  destruct cs as [|c cs].
  - apply Forall2_nil_inv_r in Hcs. subst elems. simpl.
    step (get_id_name_ok _ _ _ _ _ _ _ _ Hl1).
    exists [CArray []; CObject i n (Some x) (Some y) (Some spacingX) (length h)],
           (S (length h)).
    split.
    + rewrite alloc_ok, Hlen1. unfold h1. rewrite <- app_assoc. reflexivity.
    + econstructor.
      * apply lookup_alloc2.
      * apply lookup_alloc2.
      * lia.
      * lia.
      * constructor. lia.
  - rewrite Hlen. cbn [length Nat.ltb Nat.leb].
    step (get_elems_ok _ _ _ Han1).
    assert (Hcs1 : Forall2 (reprL h1) elems (c :: cs)).
    { eapply Forall2_impl; [exact Hcs|]. intros e' c' H'. apply reprL_extend, H'. }
    destruct (mapM_layout_spec spacingX spacingY fuel l y level i n xo yo wo an
                elems (c :: cs) IH Hfuel elems 0 h1 Hcs1 Hl1 Han1)
      as (ext2 & ls & Hrun2 & HL).
    step Hrun2.
    set (h2 := h1 ++ ext2) in *.
    rewrite Hlen in HL.
    set (L := mapi_from _ 0 (c :: cs)) in HL.
    assert (Hh2 : length h1 <= length h2)
      by (unfold h2; rewrite length_app; lia).
    destruct (arrange_h_spec h2 (length h1) (length h2) l (length h) i n xo yo wo an
                ls L x y spacingX HL Hllt ltac:(lia) ltac:(lia)
                (lookup_app_l_Some _ _ _ _ Hch1) (lookup_app_l_Some _ _ _ _ Hl1)
                ltac:(unfold L; rewrite mapi_from_length; simpl; lia))
      as (hf & l' & Hrun & Hlenf & Hframe & Hp).
    destruct (agree_extends h hf) as [ext Hext].
    + lia.
    + intros k Hk. rewrite Hframe by exact Hk.
      unfold h2, h1. rewrite <- app_assoc. apply lookup_app_l, Hk.
    + exists ext, l'. rewrite <- Hext. split; [exact Hrun|].
      rewrite layoutTree_internal. exact Hp.
Qed.

(** ** Every logical tree has a representation *)

Lemma storeMember_unfold i n cs h :
  storeMember (mkMember i n cs) h
  = (S (length (snd (storeAll cs h))),
     snd (storeAll cs h)
     ++ [CArray (fst (storeAll cs h));
         CObject i n None None None (length (snd (storeAll cs h)))]).
Proof.
  change (storeMember (mkMember i n cs) h)
    with (let '(ls, h1) := storeAll cs h in
          (S (length h1), h1 ++ [CArray ls; CObject i n None None None (length h1)])).
  destruct (storeAll cs h). reflexivity.
Qed.

Lemma storeAll_repr cs :
  Forall (fun t => forall h, exists ext,
              snd (storeMember t h) = h ++ ext
              /\ reprL (h ++ ext) (fst (storeMember t h)) t) cs ->
  forall h, exists ext,
    snd (storeAll cs h) = h ++ ext
    /\ Forall2 (reprL (h ++ ext)) (fst (storeAll cs h)) cs.
Proof.
  induction 1 as [|c cs Hc _ IH]; intros h.
  - exists []. simpl. rewrite app_nil_r. split; [reflexivity|constructor].
  - simpl. destruct (Hc h) as (ext1 & E1 & R1).
    destruct (storeMember c h) as [l h1]. simpl in E1, R1. subst h1.
    destruct (IH (h ++ ext1)) as (ext2 & E2 & R2).
    destruct (storeAll cs (h ++ ext1)) as [ls h2]. simpl in E2, R2. subst h2.
    exists (ext1 ++ ext2). simpl. rewrite app_assoc.
    split; [reflexivity|]. constructor; [apply reprL_extend, R1|exact R2].
Qed.

(** [storeMember] extends the store with a representation of the tree. *)
Lemma storeMember_repr t : forall h, exists ext,
  snd (storeMember t h) = h ++ ext
  /\ reprL (h ++ ext) (fst (storeMember t h)) t.
Proof.
  induction t as [i n cs IH] using FamilyMember_forall_ind. intros h.
  rewrite storeMember_unfold.
  destruct (storeAll_repr cs IH h) as (ext & E & R).
  destruct (storeAll cs h) as [ls h1]. simpl in E, R. subst h1. simpl.
  exists (ext ++ [CArray ls; CObject i n None None None (length (h ++ ext))]).
  rewrite app_assoc. split; [reflexivity|].
  econstructor.
  - apply lookup_alloc2.
  - apply lookup_alloc2.
  - eapply Forall2_impl; [exact R|]. intros e c Hc. apply reprL_extend, Hc.
Qed.

(** From a logical tree to its layout through the heap: store the tree,
    call [layoutTree_h] with fuel for its height, read the result back. *)
Lemma layoutTree_h_end_to_end spacingX spacingY t h x y level siblingIndex
    siblingsCount :
  exists l' h',
    layoutTree_h (height t) (fst (storeMember t h)) x y level siblingIndex
      siblingsCount spacingX spacingY (snd (storeMember t h))
    = Some (l', h')
    /\ reprP h' (length (snd (storeMember t h))) l'
         (layoutTree t x y level siblingIndex siblingsCount spacingX spacingY).
Proof.
  destruct (storeMember_repr t h) as (ext & E & R).
  rewrite E.
  destruct (layoutTree_h_correct spacingX spacingY t (height t) (h ++ ext)
              (fst (storeMember t h)) x y level siblingIndex siblingsCount R
              (Nat.le_refl _)) as (ext' & l' & Hrun & Hp).
  exists l', ((h ++ ext) ++ ext'). split; assumption.
Qed.

(** ** Reachable cells and reading back *)

Lemma reach_inv h l k :
  reach h l k ->
  k = l
  \/ (exists i n xo yo wo a, h !! l = Some (CObject i n xo yo wo a) /\ reach h a k)
  \/ (exists elems e, h !! l = Some (CArray elems) /\ In e elems /\ reach h e k).
Proof.
  intros H. destruct H as [l|l i n xo yo wo a k Hl Hk|a elems e k Ha He Hk].
  - left. reflexivity.
  - right. left. exists i, n, xo, yo, wo, a. split; assumption.
  - right. right. exists elems, e. repeat split; assumption.
Qed.

(** Whatever is reachable from the root of a positioned tree lies in the
    segment of the tree. *)
Lemma reprP_reach h :
  (forall lo l p, reprP h lo l p -> forall k, reach h l k -> lo <= k <= l)
  /\ (forall lo hi es ps, reprPs h lo hi es ps ->
      forall e k, In e es -> reach h e k -> lo <= k < hi).
Proof.
  apply reprP_reprPs_ind.
  - intros lo l i n x y w a elems cs Hl Ha Hlo Hal _ IH k Hk.
    destruct (reach_inv _ _ _ Hk)
      as [->|[(i0 & n0 & xo & yo & wo & a0 & Hl0 & Hak)|(elems0 & e & Hl0 & _)]].
    + lia.
    + rewrite Hl in Hl0. injection Hl0 as _ _ _ _ _ <-.
      destruct (reach_inv _ _ _ Hak)
        as [->|[(i1 & n1 & xo1 & yo1 & wo1 & a1 & Ha1 & _)|(elems1 & e & Ha1 & He & Hek)]].
      * lia.
      * rewrite Ha in Ha1. discriminate.
      * rewrite Ha in Ha1. injection Ha1 as <-.
        specialize (IH e k He Hek). lia.
    + rewrite Hl in Hl0. discriminate.
  - intros lo hi _ e k [].
  - intros lo hi e es c cs Hc IHc Hes IHes e' k [<-|He'] Hk.
    + specialize (IHc k Hk).
      apply (proj2 (reprP_bounds h)) in Hes. lia.
    + specialize (IHes e' k He' Hk).
      apply (proj1 (reprP_bounds h)) in Hc. lia.
Qed.

Lemma heightP_children i n x y w cs fuel :
  heightP (mkNode i n x y w cs) <= S fuel -> Forall (fun c => heightP c <= fuel) cs.
Proof.
  simpl. intros H. apply le_S_n in H.
  apply List.Forall_forall. intros c Hc.
  assert (Hmax : list_max (map heightP cs) <= fuel) by exact H.
  rewrite list_max_le in Hmax. rewrite List.Forall_forall in Hmax.
  apply Hmax, in_map, Hc.
Qed.

(** Reading back the root of a positioned tree gives the tree. *)
Lemma readLayout_reprP h :
  (forall lo l p, reprP h lo l p ->
     forall fuel, heightP p <= fuel -> readLayout fuel h l = Some p)
  /\ (forall lo hi es ps, reprPs h lo hi es ps ->
      forall fuel, Forall (fun c => heightP c <= fuel) ps ->
                   mapM (readLayout fuel h) es = Some ps).
Proof.
  apply reprP_reprPs_ind.
  - intros lo l i n x y w a elems cs Hl Ha _ _ _ IH fuel Hfuel.
    destruct fuel as [|fuel]; [simpl in Hfuel; lia|].
    apply heightP_children in Hfuel.
    simpl. rewrite Hl, Ha, (IH fuel Hfuel). reflexivity.
  - intros lo hi _ fuel _. reflexivity.
  - intros lo hi e es c cs _ IHc _ IHes fuel Hfuel.
    inversion Hfuel as [|? ? Hc Hcs]; subst.
    apply mapM_Some. constructor.
    + apply IHc, Hc.
    + apply mapM_Some, IHes, Hcs.
Qed.

Lemma exampleHeap_repr : reprL exampleHeap exampleRoot grandchildTree.
Proof. vm_compute. repeat (econstructor; try reflexivity). Qed.

Lemma exampleHeapAfter_repr : reprL exampleHeapAfter exampleRoot grandchildTree.
Proof. vm_compute. repeat (econstructor; try reflexivity). Qed.

(** C9.  A call of [layoutTree] on the representation of a logical tree
    returns, leaves every cell that existed before the call as it was (so
    the [id], [name] and [children] of every input node are unchanged and
    the input still is the same tree), and returns the layout in cells that
    did not exist before the call: all that is reachable from the result
    was allocated by the call. *)
Theorem layoutTree_h_does_not_mutate_input (spacingX spacingY : Q) t fuel h l
    x y level siblingIndex siblingsCount :
  reprL h l t -> height t <= fuel ->
  exists l' h',
    layoutTree_h fuel l x y level siblingIndex siblingsCount spacingX spacingY h
    = Some (l', h')
    /\ (forall k c, h !! k = Some c -> h' !! k = Some c)
    /\ reprL h' l t
    /\ (forall k, reach h' l' k -> length h <= k /\ h !! k = None)
    /\ readLayout
         (heightP (layoutTree t x y level siblingIndex siblingsCount
                     spacingX spacingY)) h' l'
       = Some (layoutTree t x y level siblingIndex siblingsCount spacingX spacingY).
Proof.
  intros Hrep Hfuel.
  destruct (layoutTree_h_correct spacingX spacingY t fuel h l x y level
              siblingIndex siblingsCount Hrep Hfuel) as (ext & l' & Hrun & Hp).
  exists l', (h ++ ext).
  split; [exact Hrun|].
  split; [intros k c Hk; apply lookup_app_l_Some, Hk|].
  split; [apply reprL_extend, Hrep|].
  split.
  - intros k Hk. pose proof (proj1 (reprP_reach _) _ _ _ Hp k Hk) as [Hlo _].
    split; [exact Hlo|]. apply lookup_ge_None_2, Hlo.
  - apply (proj1 (readLayout_reprP _) _ _ _ Hp). lia.
Qed.

Lemma layoutTree_h_does_not_mutate_input_witness :
  exists l' h',
    layoutTree_h 3 exampleRoot 0 80 0 0 1 180 160 exampleHeap = Some (l', h')
    /\ (forall k c, exampleHeap !! k = Some c -> h' !! k = Some c)
    /\ reprL h' exampleRoot grandchildTree
    /\ (forall k, reach h' l' k -> length exampleHeap <= k /\ exampleHeap !! k = None)
    /\ readLayout (heightP (layoutTree grandchildTree 0 80 0 0 1 180 160)) h' l'
       = Some (layoutTree grandchildTree 0 80 0 0 1 180 160).
Proof.
  apply (layoutTree_h_does_not_mutate_input 180 160 grandchildTree 3
           exampleHeap exampleRoot 0 80 0 0 1).
  - exact exampleHeap_repr.
  - vm_compute. lia.
Defined.

(** C8.  Two calls of [layoutTree] with the same arguments, on stores that
    both hold the input tree but may differ in everything else (for
    instance, the second call runs in the store the first one left), both
    return, and the two results read back as one and the same positioned
    tree: equal [id], [name], [x], [y], [width] and children at every node.
    That tree is the value of the pure [layoutTree] at the arguments. *)
Theorem layoutTree_h_deterministic (spacingX spacingY : Q) t fuel h1 l1 h2 l2
    x y level siblingIndex siblingsCount :
  reprL h1 l1 t -> reprL h2 l2 t -> height t <= fuel ->
  exists r1 h1' r2 h2' p,
    layoutTree_h fuel l1 x y level siblingIndex siblingsCount spacingX spacingY h1
    = Some (r1, h1')
    /\ layoutTree_h fuel l2 x y level siblingIndex siblingsCount spacingX spacingY h2
       = Some (r2, h2')
    /\ readLayout (heightP p) h1' r1 = Some p
    /\ readLayout (heightP p) h2' r2 = Some p
    /\ p = layoutTree t x y level siblingIndex siblingsCount spacingX spacingY.
Proof.
  intros Hrep1 Hrep2 Hfuel.
  destruct (layoutTree_h_correct spacingX spacingY t fuel h1 l1 x y level
              siblingIndex siblingsCount Hrep1 Hfuel) as (ext1 & r1 & Hrun1 & Hp1).
  destruct (layoutTree_h_correct spacingX spacingY t fuel h2 l2 x y level
              siblingIndex siblingsCount Hrep2 Hfuel) as (ext2 & r2 & Hrun2 & Hp2).
  exists r1, (h1 ++ ext1), r2, (h2 ++ ext2),
    (layoutTree t x y level siblingIndex siblingsCount spacingX spacingY).
  split; [exact Hrun1|]. split; [exact Hrun2|].
  split; [apply (proj1 (readLayout_reprP _) _ _ _ Hp1); lia|].
  split; [apply (proj1 (readLayout_reprP _) _ _ _ Hp2); lia|].
  reflexivity.
Qed.

Lemma layoutTree_h_deterministic_witness :
  exists r1 h1' r2 h2' p,
    layoutTree_h 3 exampleRoot 0 80 0 0 1 180 160 exampleHeap = Some (r1, h1')
    /\ layoutTree_h 3 exampleRoot 0 80 0 0 1 180 160 exampleHeapAfter = Some (r2, h2')
    /\ readLayout (heightP p) h1' r1 = Some p
    /\ readLayout (heightP p) h2' r2 = Some p
    /\ p = layoutTree grandchildTree 0 80 0 0 1 180 160.
Proof.
  apply (layoutTree_h_deterministic 180 160 grandchildTree 3
           exampleHeap exampleRoot exampleHeapAfter exampleRoot 0 80 0 0 1).
  - exact exampleHeap_repr.
  - exact exampleHeapAfter_repr.
  - vm_compute. lia.
Defined.

(** * Further properties of the layout *)

Local Open Scope Q_scope.

(** ** The shape of the result *)

Lemma placed_erase spacingX ps : forall cx,
  map erase (placed spacingX cx ps) = map erase ps.
Proof.
  induction ps as [|p ps IH]; intros cx; simpl; [reflexivity|].
  rewrite IH. destruct p; reflexivity.
Qed.

Lemma mapi_from_erase (f : nat -> FamilyMember -> PositionedNode) cs :
  Forall (fun c => forall k, erase (f k c) = c) cs ->
  forall i0, map erase (mapi_from f i0 cs) = cs.
Proof.
  induction 1 as [|c cs Hc _ IH]; intros i0; simpl; [reflexivity|].
  rewrite Hc, IH. reflexivity.
Qed.

Lemma erase_layoutTree (spacingX spacingY : Q) :
  forall t x y level siblingIndex siblingsCount,
    erase (layoutTree t x y level siblingIndex siblingsCount spacingX spacingY) = t.
Proof.
  intros t. induction t as [i n cs IH] using FamilyMember_forall_ind.
  intros x y level siblingIndex siblingsCount.
  destruct cs as [|c cs]; [reflexivity|].
  rewrite layoutTree_internal, arrange_unfold. cbn [erase].
  rewrite placed_erase. unfold mapi. rewrite mapi_from_erase; [reflexivity|].
  eapply Forall_impl; [exact IH|]. intros t Ht k. apply Ht.
Qed.

(** X1.  [layoutTree] only adds geometry: without [x], [y] and [width] its
    result is the input tree, with the same ids, names and children in the
    same order at every node. *)
Theorem layoutTree_erase (spacingX spacingY : Q) :
  forall t x y level siblingIndex siblingsCount,
    erase (layoutTree t x y level siblingIndex siblingsCount spacingX spacingY) = t.
Proof. exact (erase_layoutTree spacingX spacingY). Qed.

Lemma mapi_from_ext {A B} (f g : nat -> A -> B) l :
  Forall (fun a => forall k k', f k a = g k' a) l ->
  forall i0 j0, mapi_from f i0 l = mapi_from g j0 l.
Proof.
  induction 1 as [|a l Ha _ IH]; intros i0 j0; simpl; [reflexivity|].
  rewrite (Ha i0 j0), (IH (S i0) (S j0)). reflexivity.
Qed.

(** X2.  The arguments [level], [siblingIndex] and [siblingsCount] have no
    influence on the result. *)
Theorem layoutTree_ignores_level_and_sibling_arguments (spacingX spacingY : Q) :
  forall t x y level siblingIndex siblingsCount level' siblingIndex' siblingsCount',
    layoutTree t x y level siblingIndex siblingsCount spacingX spacingY
    = layoutTree t x y level' siblingIndex' siblingsCount' spacingX spacingY.
Proof.
  intros t. induction t as [i n cs IH] using FamilyMember_forall_ind.
  intros x y level siblingIndex siblingsCount level' siblingIndex' siblingsCount'.
  destruct cs as [|c cs]; [reflexivity|].
  rewrite !layoutTree_internal. f_equal.
  unfold mapi. apply mapi_from_ext.
  eapply Forall_impl; [exact IH|]. intros t Ht k k'. apply Ht.
Qed.

(** ** Widths in closed form *)


Lemma qn_S a : qn (S a) == qn a + 1.
Proof. apply inject_Z_succ. Qed.

Lemma qn_le a b : (a <= b)%nat -> qn a <= qn b.
Proof. intros H. unfold qn. rewrite <- Zle_Qle. lia. Qed.






(** ** Where the children are packed *)










(** ** Any two siblings *)






(** ** The vertical extent of a layout *)

Lemma nodes_set_x_y p v n :
  In n (nodes (set_x p v)) -> exists n', In n' (nodes p) /\ node_y n = node_y n'.
Proof.
  rewrite nodes_set_x, (nodes_unfold p). intros [<-|H].
  - exists p. split; [now left|reflexivity].
  - exists n. split; [now right|reflexivity].
Qed.

Lemma nodes_set_x_y_inv p v n' :
  In n' (nodes p) -> exists n, In n (nodes (set_x p v)) /\ node_y n = node_y n'.
Proof.
  rewrite nodes_set_x, (nodes_unfold p). intros [<-|H].
  - exists (set_x p v). split; [now left|reflexivity].
  - exists n'. split; [now right|reflexivity].
Qed.

Lemma in_flat_map_placed_inv {B} (f : PositionedNode -> list B) spacingX ps p :
  In p ps ->
  forall cx, exists v, forall n, In n (f (set_x p v)) ->
                                 In n (flat_map f (placed spacingX cx ps)).
Proof.
  induction ps as [|q ps IH]; intros Hp cx; [destruct Hp|].
  destruct Hp as [->|Hp].
  - eexists. intros n Hn. simpl. apply in_or_app. left. exact Hn.
  - destruct (IH Hp (cx + (node_width q + spacingX * (1 # 2)))) as [v Hv].
    exists v. intros n Hn. simpl. apply in_or_app. right. apply Hv, Hn.
Qed.

Lemma in_mapi_from_inv {A B} (f : nat -> A -> B) l a :
  In a l -> forall i0, exists k, In (f k a) (mapi_from f i0 l).
Proof.
  induction l as [|b l IH]; intros Ha i0; [destruct Ha|].
  destruct Ha as [->|Ha].
  - exists i0. now left.
  - destruct (IH Ha (S i0)) as [k Hk]. exists k. now right.
Qed.

Lemma list_max_attained l : l <> [] -> In (list_max l) l.
Proof.
  induction l as [|a l IH]; intros Hne; [now destruct Hne|].
  destruct l as [|b l].
  - simpl. left. lia.
  - change (list_max (a :: b :: l)) with (Nat.max a (list_max (b :: l))).
    destruct (Nat.max_spec a (list_max (b :: l))) as [[_ ->]|[_ ->]].
    + right. apply IH. discriminate.
    + now left.
Qed.

(** The ordinates of the nodes of a layout range from [y] to
    [y + (height - 1) * spacingY], and both ends are taken. *)
Lemma layoutTree_y_range (spacingX spacingY : Q) :
  0 <= spacingY ->
  forall t x y level siblingIndex siblingsCount,
    (forall n,
        In n (nodes (layoutTree t x y level siblingIndex siblingsCount
                       spacingX spacingY)) ->
        y <= node_y n /\ node_y n <= y + (qn (height t) - 1) * spacingY)
    /\ exists n,
        In n (nodes (layoutTree t x y level siblingIndex siblingsCount
                       spacingX spacingY))
        /\ node_y n == y + (qn (height t) - 1) * spacingY.
Proof.
  intros Hpos t. induction t as [i nm cs IH] using FamilyMember_forall_ind.
  intros x y level siblingIndex siblingsCount.
  assert (Hroot : node_y (layoutTree (mkMember i nm cs) x y level siblingIndex
                            siblingsCount spacingX spacingY) = y)
    by (destruct cs; reflexivity).
  change (height (mkMember i nm cs)) with (S (list_max (map height cs))).
  set (M := list_max (map height cs)).
  pose proof (qn_S M) as HS.
  assert (HM : 0 <= qn M) by (apply (qn_le 0)%nat; lia).
  assert (HMs : 0 <= qn M * spacingY) by (apply Qmult_le_0_compat; assumption).
  rewrite nodes_unfold.
  destruct cs as [|c cs].
  - split.
    + intros n [<-|[]]. rewrite HS. simpl. lra.
    + eexists. split; [left; reflexivity|]. rewrite HS. simpl.
      change (qn M) with 0. lra.
  - rewrite List.Forall_forall in IH. split.
    + intros n [<-|Hn]; [rewrite Hroot, HS; lra|].
      rewrite layoutTree_internal, arrange_children in Hn.
      apply in_flat_map_placed in Hn. destruct Hn as (p & v & Hp & Hn).
      apply in_mapi_from in Hp. destruct Hp as (k & child & Hchild & ->).
      apply nodes_set_x_y in Hn. destruct Hn as (n' & Hn' & ->).
      destruct (IH child Hchild 0 (y + spacingY) (S level) k (length (c :: cs)))
        as [Hrange _].
      destruct (Hrange n' Hn') as [Hlo Hhi].
      assert (Hh : (1 <= height child <= M)%nat).
      { split; [destruct child; simpl; lia|].
        pose proof (proj1 (list_max_le (map height (c :: cs)) M) (Nat.le_refl _))
          as Hall.
        rewrite List.Forall_forall in Hall. apply Hall, in_map, Hchild. }
      assert (H1 : 0 <= (qn M - qn (height child)) * spacingY).
      { apply Qmult_le_0_compat; [|exact Hpos].
        pose proof (qn_le _ _ (proj2 Hh)). lra. }
      assert (H2 : 0 <= (qn (height child) - 1) * spacingY).
      { apply Qmult_le_0_compat; [|exact Hpos].
        pose proof (qn_le _ _ (proj1 Hh)) as H. change (qn 1) with 1 in H. lra. }
      rewrite HS. split; lra.
    + assert (Hin : In M (map height (c :: cs)))
        by (apply list_max_attained; discriminate).
      apply in_map_iff in Hin. destruct Hin as (child & Hheight & Hchild).
      destruct (in_mapi_from_inv
                  (fun k child =>
                     layoutTree child 0 (y + spacingY) (S level) k (length (c :: cs))
                       spacingX spacingY) (c :: cs) child Hchild 0%nat) as [k Hk].
      destruct (IH child Hchild 0 (y + spacingY) (S level) k (length (c :: cs)))
        as [_ (n' & Hn' & Hy')].
      rewrite layoutTree_internal, arrange_children.
      set (cx := x - _ / 2).
      destruct (in_flat_map_placed_inv nodes spacingX _ _ Hk cx) as [v Hv].
      destruct (nodes_set_x_y_inv _ v n' Hn') as (n & Hn & Hy).
      exists n. split; [right; apply Hv, Hn|].
      rewrite Hy, Hy', Hheight, HS. lra.
Qed.

Lemma layoutTree_bounds_y (spacingX spacingY : Q) (Hpos : 0 <= spacingY) :
  forall t x y level siblingIndex siblingsCount,
  exists x0 x1 y0 y1,
    getTreeBounds
      (layoutTree t x y level siblingIndex siblingsCount spacingX spacingY)
      defaultBounds
    = mkBounds (Finite x0) (Finite x1) (Finite y0) (Finite y1)
    /\ y0 == y
    /\ y1 == y + (qn (height t) - 1) * spacingY + 80.
Proof.
  intros t x y level siblingIndex siblingsCount.
  set (p := layoutTree t x y level siblingIndex siblingsCount spacingX spacingY).
  assert (Hbox : box_of (nodes p) (getTreeBounds p defaultBounds)).
  { rewrite getTreeBounds_nodes, nodes_unfold. apply box_of_traversal. }
  destruct Hbox as (x0 & x1 & y0 & y1 & -> & _ & _ & [Hin0 Hle0] & [Hin1 Hle1]).
  exists x0, x1, y0, y1. split; [reflexivity|].
  destruct (layoutTree_y_range spacingX spacingY Hpos t x y level siblingIndex
              siblingsCount) as [Hrange (top & Htop & Hytop)].
  fold p in Hrange, Htop.
  apply in_map_iff in Hin0. destruct Hin0 as (n0 & <- & Hn0).
  apply in_map_iff in Hin1. destruct Hin1 as (n1 & <- & Hn1).
  assert (Hrooty : node_y p = y) by (unfold p; destruct t as [? ? []]; reflexivity).
  assert (Hroot : In p (nodes p)) by (rewrite nodes_unfold; now left).
  split.
  - pose proof (Hle0 _ (in_map node_y _ _ Hroot)) as H. rewrite Hrooty in H.
    destruct (Hrange n0 Hn0). lra.
  - pose proof (Hle1 _ (in_map (fun n => node_y n + 80) _ _ Htop)) as H.
    simpl in H. destruct (Hrange n1 Hn1). lra.
Qed.



(** ** The viewport of [App] *)

(** X8.  For every tree, [App] obtains finite bounds, an SVG of at least
    900 by 700, and a [viewBox] in which the footprint of every node of the
    tree it renders (the layout with the root moved to the middle of the
    bounds) lies with the padding of 80 to spare on every side. *)
Theorem appLayout_contains_every_node (r : FamilyMember) :
  exists v p,
    appLayout (Some r) = Some v
    /\ treeLayout v = Some p
    /\ 900 <= svgWidth v /\ 700 <= svgHeight v
    /\ forall n, In n (nodes p) -> footprint_inside 80 (viewBox v) n.
Proof.
  unfold appLayout, viewportOf.
  set (L := layoutTree r 0 80 0 0 1 180 160).
  assert (Hbox : box_of (nodes L) (getTreeBounds L defaultBounds)).
  { rewrite getTreeBounds_nodes, nodes_unfold. apply box_of_traversal. }
  destruct Hbox as (x0 & x1 & y0 & y1 & -> & [_ Hx0] & [_ Hx1] & [_ Hy0] & [_ Hy1]).
  cbn [minX maxX minY maxY finite].
  do 2 eexists. split; [reflexivity|]. split; [reflexivity|].
  cbn [svgWidth svgHeight viewBox].
  pose proof (Q.le_max_l (x1 - x0 + 80 * 2) 900) as HW.
  pose proof (Q.le_max_l (y1 - y0 + 80 * 2) 700) as HH.
  set (W := Qmax (x1 - x0 + 80 * 2) 900) in *.
  set (H := Qmax (y1 - y0 + 80 * 2) 700) in *.
  split; [apply Q.le_max_r|]. split; [apply Q.le_max_r|].
  assert (Hall : forall n, In n (nodes L) ->
                           x0 <= node_x n /\ node_x n + 100 <= x1
                           /\ y0 <= node_y n /\ node_y n + 80 <= y1).
  { intros n Hn. repeat split.
    - apply Hx0, (in_map node_x), Hn.
    - apply (Hx1 (node_x n + 100)), (in_map (fun n => node_x n + 100)), Hn.
    - apply Hy0, (in_map node_y), Hn.
    - apply (Hy1 (node_y n + 80)), (in_map (fun n => node_y n + 80)), Hn. }
  assert (Hroot : In L (nodes L)) by (rewrite nodes_unfold; now left).
  destruct (Hall L Hroot) as (Hr1 & Hr2 & Hr3 & Hr4).
  intros n Hn. rewrite nodes_set_x in Hn. unfold footprint_inside.
  destruct Hn as [<-|Hn].
  - simpl. repeat split; qlra.
  - assert (Hn' : In n (nodes L)) by (rewrite nodes_unfold; now right).
    destruct (Hall n Hn') as (H1 & H2 & H3 & H4).
    repeat split; lra.
Qed.

(** X9.  The height of the SVG is [160 * height + 80], where [height] is
    the number of levels of the tree, and 700 when that is less: the drawing
    grows downwards from the fourth level on. *)
Theorem appLayout_height (r : FamilyMember) :
  exists v,
    appLayout (Some r) = Some v
    /\ svgHeight v == Qmax (160 * inject_Z (Z.of_nat (height r)) + 80) 700.
Proof.
  unfold appLayout, viewportOf.
  destruct (layoutTree_bounds_y 180 160 ltac:(discriminate) r 0 80 0%nat 0%nat 1%nat)
    as (x0 & x1 & y0 & y1 & -> & Hy0 & Hy1).
  cbn [minX maxX minY maxY finite].
  eexists. split; [reflexivity|]. cbn [svgHeight].
  apply Q.max_compat; [|reflexivity].
  rewrite Hy0, Hy1. fold (qn (height r)). ring.
Qed.

(** * Further properties of the tree builder *)

Lemma addChild_absent (parentId : string) (newMember : FamilyMember) :
  forall member,
    ~ In parentId (ids member) -> addChild parentId newMember member = member.
Proof.
  intros member. induction member as [i n cs IH] using FamilyMember_forall_ind.
  intros Hnot. simpl in *.
  destruct (String.eqb_spec i parentId) as [E|E].
  - exfalso. apply Hnot. now left.
  - f_equal. apply map_id_on.
    rewrite List.Forall_forall in *. intros c Hc. apply IH; [exact Hc|].
    intros Hin. apply Hnot. right. apply in_flat_map. exists c. split; assumption.
Qed.

Lemma addChild_absent_all parentId newMember cs :
  ~ In parentId (flat_map ids cs) -> map (addChild parentId newMember) cs = cs.
Proof.
  intros Hnot. apply map_id_on. apply List.Forall_forall. intros c Hc.
  apply addChild_absent. intros Hin. apply Hnot, in_flat_map. exists c. split; assumption.
Qed.

Lemma ids_unfold i n cs : ids (mkMember i n cs) = i :: flat_map ids cs.
Proof. reflexivity. Qed.

Lemma addChild_match i n cs newMember :
  addChild i newMember (mkMember i n cs) = mkMember i n (cs ++ [newMember]).
Proof. simpl. rewrite String.eqb_refl. reflexivity. Qed.

Lemma addChild_other parentId i n cs newMember :
  i <> parentId ->
  addChild parentId newMember (mkMember i n cs)
  = mkMember i n (map (addChild parentId newMember) cs).
Proof.
  intros E. simpl. destruct (String.eqb_spec i parentId); [contradiction|reflexivity].
Qed.

Lemma flat_map_ids_snoc cs newMember :
  flat_map ids (cs ++ [newMember]) = flat_map ids cs ++ ids newMember.
Proof. rewrite flat_map_app. simpl. rewrite app_nil_r. reflexivity. Qed.

(** X10.  The ids after [addChild] are the ids before, together with the
    ids of the new member when [parentId] is the id of some member: nothing
    is ever removed, and nothing is added under an unknown parent. *)
Theorem addChild_ids (parentId : string) (newMember : FamilyMember) :
  forall member i,
    In i (ids (addChild parentId newMember member))
    <-> In i (ids member) \/ (In parentId (ids member) /\ In i (ids newMember)).
Proof.
  intros member. induction member as [j n cs IH] using FamilyMember_forall_ind.
  intros i. destruct (String.eqb_spec j parentId) as [->|E].
  - rewrite addChild_match, !ids_unfold, flat_map_ids_snoc. simpl.
    rewrite in_app_iff. intuition auto.
  - rewrite addChild_other by exact E. rewrite !ids_unfold.
    rewrite List.Forall_forall in IH.
    assert (Hcs : In i (flat_map ids (map (addChild parentId newMember) cs))
                  <-> In i (flat_map ids cs)
                      \/ (In parentId (flat_map ids cs) /\ In i (ids newMember))).
    { rewrite !in_flat_map. split.
      - intros (c' & Hc' & Hi). apply in_map_iff in Hc'.
        destruct Hc' as (c & <- & Hc). apply (IH c Hc) in Hi.
        destruct Hi as [Hi|[Hp Hi]].
        + left. exists c. split; assumption.
        + right. split; [|exact Hi]. exists c. split; assumption.
      - intros [(c & Hc & Hi)|[(c & Hc & Hp) Hi]].
        + exists (addChild parentId newMember c). split; [apply in_map, Hc|].
          apply (IH c Hc). left. exact Hi.
        + exists (addChild parentId newMember c). split; [apply in_map, Hc|].
          apply (IH c Hc). right. split; assumption. }
    simpl. rewrite Hcs. intuition auto.
Qed.

Lemma findMember_unfold i j n cs :
  findMember i (mkMember j n cs)
  = if String.eqb j i then Some (mkMember j n cs) else findFirst i cs.
Proof.
  change (findMember i (mkMember j n cs))
    with (if String.eqb j i then Some (mkMember j n cs)
          else (fix first (cs : list FamilyMember) : option FamilyMember :=
                  match cs with
                  | [] => None
                  | c :: cs' =>
                      match findMember i c with
                      | Some m => Some m
                      | None => first cs'
                      end
                  end) cs).
  destruct (String.eqb j i); [reflexivity|].
  induction cs as [|c cs IH]; [reflexivity|].
  simpl. rewrite IH. reflexivity.
Qed.

(** X11.  After [addChild], the first member with the id [parentId] is the
    one that was there before with the new member appended as its last
    child; its other children are unchanged and keep their order.  When
    there was none there is none afterwards. *)
Theorem addChild_findMember (parentId : string) (newMember : FamilyMember) :
  forall member,
    findMember parentId (addChild parentId newMember member)
    = option_map (withChild newMember) (findMember parentId member).
Proof.
  intros member. induction member as [j n cs IH] using FamilyMember_forall_ind.
  destruct (String.eqb_spec j parentId) as [->|E].
  - rewrite addChild_match, !findMember_unfold, String.eqb_refl. reflexivity.
  - rewrite addChild_other by exact E. rewrite !findMember_unfold.
    destruct (String.eqb_spec j parentId); [contradiction|].
    induction IH as [|c cs Hc _ IHcs]; [reflexivity|].
    simpl. rewrite Hc.
    destruct (findMember parentId c); [reflexivity|]. simpl. exact IHcs.
Qed.

Lemma NoDup_app_parts {A} (l k : list A) :
  List.NoDup (l ++ k) ->
  List.NoDup l /\ List.NoDup k /\ forall a, In a l -> ~ In a k.
Proof.
  intros H. split; [|split].
  - eapply List.NoDup_app_remove_r, H.
  - eapply List.NoDup_app_remove_l, H.
  - intros a Hl Hk. revert H. induction l as [|b l IH]; [destruct Hl|].
    simpl. intros H. inversion H as [|? ? Hb Hrest]; subst.
    destruct Hl as [->|Hl].
    + apply Hb, in_or_app. now right.
    + apply IH; assumption.
Qed.

Lemma addChild_all_permutation parentId newMember cs :
  Forall (fun c => List.NoDup (ids c) -> In parentId (ids c) ->
                   Permutation (ids (addChild parentId newMember c))
                               (ids c ++ ids newMember)) cs ->
  List.NoDup (flat_map ids cs) -> In parentId (flat_map ids cs) ->
  Permutation (flat_map ids (map (addChild parentId newMember) cs))
              (flat_map ids cs ++ ids newMember).
Proof.
  induction 1 as [|c cs Hc _ IH]; intros Hnd Hin; [destruct Hin|].
  simpl in *. destruct (NoDup_app_parts _ _ Hnd) as (Hndc & Hndcs & Hdisj).
  apply in_app_or in Hin.
  destruct (in_dec string_dec parentId (ids c)) as [Hpc|Hpc].
  - rewrite addChild_absent_all by (apply Hdisj, Hpc).
    rewrite (Hc Hndc Hpc), <- !app_assoc.
    apply Permutation_app_head, Permutation_app_comm.
  - destruct Hin as [Hin|Hin]; [contradiction|].
    rewrite (addChild_absent _ _ c Hpc), (IH Hndcs Hin), app_assoc. reflexivity.
Qed.

Lemma addChild_permutation parentId newMember :
  forall member,
    List.NoDup (ids member) -> In parentId (ids member) ->
    Permutation (ids (addChild parentId newMember member))
                (ids member ++ ids newMember).
Proof.
  intros member. induction member as [j n cs IH] using FamilyMember_forall_ind.
  intros Hnd Hin. destruct (String.eqb_spec j parentId) as [->|E].
  - rewrite addChild_match, !ids_unfold, flat_map_ids_snoc. reflexivity.
  - rewrite addChild_other by exact E. rewrite !ids_unfold in *.
    inversion Hnd as [|? ? _ Hcs]; subst.
    destruct Hin as [Hin|Hin]; [contradiction|].
    simpl. constructor. apply addChild_all_permutation; assumption.
Qed.

(** X12.  When the ids of the tree are pairwise distinct and [parentId] is
    one of them, [addChild] adds the new member exactly once: the ids
    afterwards are, up to order, the ids before and those of the new
    member, each once. *)
Theorem addChild_adds_exactly_once (parentId : string) (newMember member : FamilyMember) :
  List.NoDup (ids member) -> In parentId (ids member) ->
  Permutation (ids (addChild parentId newMember member))
              (ids member ++ ids newMember)
  /\ length (ids (addChild parentId newMember member))
     = (length (ids member) + length (ids newMember))%nat.
Proof.
  intros Hnd Hin.
  pose proof (addChild_permutation parentId newMember member Hnd Hin) as Hperm.
  split; [exact Hperm|].
  rewrite (Permutation_length Hperm), length_app. reflexivity.
Qed.

Lemma addChild_adds_exactly_once_witness :
  Permutation (ids (addChild "a" (leafMember "n" "new") grandchildTree))
              (ids grandchildTree ++ ids (leafMember "n" "new"))
  /\ length (ids (addChild "a" (leafMember "n" "new") grandchildTree))
     = (length (ids grandchildTree) + length (ids (leafMember "n" "new")))%nat.
Proof.
  apply (addChild_adds_exactly_once "a" (leafMember "n" "new") grandchildTree).
  - vm_compute. repeat constructor; simpl; intuition discriminate.
  - vm_compute. right. left. reflexivity.
Defined.

Lemma addChild_NoDup parentId newMember member :
  List.NoDup (ids member) -> List.NoDup (ids newMember) ->
  (forall i, In i (ids newMember) -> ~ In i (ids member)) ->
  List.NoDup (ids (addChild parentId newMember member)).
Proof.
  intros Hm Hn Hfresh.
  destruct (in_dec string_dec parentId (ids member)) as [Hin|Hout].
  - apply (Permutation_NoDup
             (Permutation_sym (addChild_permutation _ _ _ Hm Hin))).
    apply List.NoDup_app; [exact Hm|exact Hn|].
    intros i Hi Hi'. exact (Hfresh i Hi' Hi).
  - rewrite addChild_absent by exact Hout. exact Hm.
Qed.

(** X13.  Whatever calls of [addFamilyMember] are made, with whatever
    parent ids and names, the ids of the tree stay pairwise distinct as long
    as each random id is new when it is drawn. *)
Theorem addFamilyMember_keeps_ids_unique (st : AppState) :
  reachable st -> unique_ids st.
Proof.
  induction 1 as [|st newId parentId name _ IH Hfresh].
  - exact I.
  - unfold unique_ids, addFamilyMember in *. cbn [app_root].
    assert (Hnew : List.NoDup (ids (mkMember newId name [])))
      by (simpl; constructor; [intros []|constructor]).
    destruct parentId as [pid|]; [|exact Hnew].
    destruct (falsy (Some pid)); [exact Hnew|].
    unfold fresh_id in Hfresh.
    destruct (app_root st) as [r|]; [|exact I].
    apply addChild_NoDup; [exact IH|exact Hnew|].
    intros i [<-|[]]. exact Hfresh.
Qed.

Lemma addFamilyMember_keeps_ids_unique_witness :
  unique_ids
    (addFamilyMember "b" (Some "a"%string) "second"
       (addFamilyMember "a" None "first" initialState)).
Proof.
  apply addFamilyMember_keeps_ids_unique.
  apply reachable_add.
  - apply reachable_add; [apply reachable_initial|exact I].
  - simpl. intros [H|[]]. discriminate H.
Defined.

(** ** Adding a member and the width of the layout *)









(** * Properties of [renderTree] *)

Lemma groups_unfold g : groups g = g :: flat_map groups (g_children g).
Proof. destruct g; reflexivity. Qed.

(** The groups of the rendering are the renderings of the nodes, in
    pre-order. *)
Lemma groups_renderTree selectedParent showInput inputName isExporting : forall p,
  groups (renderTree p selectedParent showInput inputName isExporting)
  = map (fun n => renderTree n selectedParent showInput inputName isExporting)
      (nodes p).
Proof.
  intros p. induction p as [i n x y w cs IH] using PositionedNode_forall_ind.
  rewrite groups_unfold, nodes_unfold. cbn [renderTree g_children node_children map].
  f_equal. induction IH as [|c cs Hc _ IHcs]; [reflexivity|].
  simpl. rewrite map_app, Hc, IHcs. reflexivity.
Qed.

(** X15.  While the tree is exported ([isExporting]), no group of the
    rendering has an add button; otherwise every group has one, and its
    click passes the id of its own node to [onAdd]. *)
Theorem renderTree_add_buttons selectedParent showInput inputName isExporting p :
  map g_addButton
    (groups (renderTree p selectedParent showInput inputName isExporting))
  = map (fun n => if isExporting then None else Some (node_id n)) (nodes p).
Proof.
  rewrite groups_renderTree, map_map. apply map_ext.
  intros [i n x y w cs]. destruct isExporting; reflexivity.
Qed.





Lemma ids_erase p : ids (erase p) = map node_id (nodes p).
Proof.
  induction p as [i n x y w cs IH] using PositionedNode_forall_ind.
  rewrite nodes_unfold. cbn [erase ids map node_id node_children]. f_equal.
  induction IH as [|c cs Hc _ IHcs]; [reflexivity|].
  simpl. rewrite map_app, Hc, IHcs. reflexivity.
Qed.

Lemma names_erase p : names (erase p) = map node_name (nodes p).
Proof.
  induction p as [i n x y w cs IH] using PositionedNode_forall_ind.
  rewrite nodes_unfold. cbn [erase names map node_name node_children]. f_equal.
  induction IH as [|c cs Hc _ IHcs]; [reflexivity|].
  simpl. rewrite map_app, Hc, IHcs. reflexivity.
Qed.

Lemma flat_map_cons_app {A B} (f : A -> list B) a l :
  flat_map f (a :: l) = f a ++ flat_map f l.
Proof. reflexivity. Qed.

Lemma branches_count selectedParent showInput inputName isExporting : forall p,
  S (length (flat_map g_branches
               (groups (renderTree p selectedParent showInput inputName isExporting))))
  = length (nodes p).
Proof.
  intros p. induction p as [i n x y w cs IH] using PositionedNode_forall_ind.
  rewrite groups_unfold, nodes_unfold, flat_map_cons_app, length_app.
  cbn [renderTree g_children g_branches node_children length].
  rewrite length_map. f_equal.
  induction IH as [|c cs Hc _ IHcs]; [reflexivity|].
  rewrite map_cons, !flat_map_cons_app, flat_map_app, !length_app, <- Hc.
  cbn [length]. lia.
Qed.

(** X17.  Rendering the layout of a tree draws one group per member, in
    pre-order, keyed by the id of the member and showing its name, and one
    branch for every member but the root. *)
Theorem renderTree_of_layout (spacingX spacingY : Q) t x y level siblingIndex
    siblingsCount selectedParent showInput inputName isExporting :
  let rendered :=
    renderTree
      (layoutTree t x y level siblingIndex siblingsCount spacingX spacingY)
      selectedParent showInput inputName isExporting in
  map g_key (groups rendered) = ids t
  /\ map g_text (groups rendered) = names t
  /\ S (length (flat_map g_branches (groups rendered))) = length (ids t).
Proof.
  intros rendered. subst rendered.
  set (p := layoutTree t x y level siblingIndex siblingsCount spacingX spacingY).
  assert (Hids : map node_id (nodes p) = ids t).
  { rewrite <- ids_erase. unfold p. rewrite erase_layoutTree. reflexivity. }
  assert (Hnames : map node_name (nodes p) = names t).
  { rewrite <- names_erase. unfold p. rewrite erase_layoutTree. reflexivity. }
  rewrite branches_count, groups_renderTree, !map_map, <- Hids, <- Hnames, length_map.
  repeat split; apply map_ext; intros [i n x' y' w cs]; reflexivity.
Qed.

(** * [addChild] on the heap *)

Local Open Scope nat_scope.

Lemma mapM_addChild_spec parentId newMember fuel ln cs :
  Forall (addChild_ok parentId newMember) cs ->
  Forall (fun c => height c <= fuel) cs ->
  forall elems i0 h,
    Forall2 (reprL h) elems cs ->
    reprL h ln newMember ->
    exists ext copies,
      mapM_from (fun _ child => addChild_h fuel parentId ln child) i0 elems h
      = Some (copies, h ++ ext)
      /\ Forall2 (reprL (h ++ ext)) copies (map (addChild parentId newMember) cs).
Proof.
  intros Hok Hfuel. induction Hok as [|c cs Hc _ IH]; intros elems i0 h Hrep Hnew.
  - apply Forall2_nil_inv_r in Hrep. subst elems.
    exists [], []. rewrite app_nil_r. split; [reflexivity|constructor].
  - apply Forall2_cons_inv_r in Hrep.
    destruct Hrep as (e & es & He & Hes & ->).
    inversion Hfuel as [|? ? Hfc Hfcs]; subst.
    destruct (Hc fuel h e ln He Hnew Hfc) as (ext1 & l1 & Hrun1 & Hp1 & _).
    assert (Hes1 : Forall2 (reprL (h ++ ext1)) es cs).
    { eapply Forall2_impl; [exact Hes|]. intros e' c' H'. apply reprL_extend, H'. }
    destruct (IH Hfcs es (S i0) (h ++ ext1) Hes1 (reprL_extend _ _ _ _ Hnew))
      as (ext2 & copies & Hrun2 & Hps).
    exists (ext1 ++ ext2), (l1 :: copies). rewrite app_assoc.
    split.
    + cbn [mapM_from]. step Hrun1. step Hrun2. reflexivity.
    + simpl. constructor; [apply reprL_extend, Hp1|exact Hps].
Qed.

Lemma addChild_h_correct parentId newMember t : addChild_ok parentId newMember t.
Proof.
  induction t as [i n cs IH] using FamilyMember_forall_ind.
  intros fuel h l ln Hrep Hnew Hfuel.
  destruct fuel as [|fuel]; [simpl in Hfuel; lia|].
  apply height_children in Hfuel.
  destruct (reprL_inv _ _ _ _ _ Hrep) as (xo & yo & wo & a & elems & Hl & Ha & Hcs).
  cbn [addChild_h]. step (load_ok _ _ _ Hl).
  destruct (String.eqb_spec i parentId) as [->|E].
  - rewrite addChild_match. step (get_elems_ok _ _ _ Ha).
    exists [CArray (elems ++ [ln]); CObject parentId n xo yo wo (length h)],
           (S (length h)).
    split; [|split; [|lia]].
    + rewrite (bind_eq _ _ _ _ _ (alloc_ok h (CArray (elems ++ [ln])))).
      rewrite alloc_ok, length_app, <- app_assoc. simpl. rewrite Nat.add_1_r.
      reflexivity.
    + econstructor.
      * apply lookup_alloc2.
      * apply lookup_alloc2.
      * apply Forall2_app.
        -- eapply Forall2_impl; [exact Hcs|]. intros e c Hc. apply reprL_extend, Hc.
        -- constructor; [apply reprL_extend, Hnew|constructor].
  - rewrite addChild_other by exact E. step (get_elems_ok _ _ _ Ha).
    destruct (mapM_addChild_spec parentId newMember fuel ln cs IH Hfuel elems 0 h
                Hcs Hnew) as (ext & copies & Hrun & Hcopies).
    step Hrun.
    exists (ext ++ [CArray copies; CObject i n xo yo wo (length (h ++ ext))]),
           (S (length (h ++ ext))).
    split; [|split; [|rewrite length_app; lia]].
    + rewrite (bind_eq _ _ _ _ _ (alloc_ok (h ++ ext) (CArray copies))).
      rewrite alloc_ok. rewrite (length_app (h ++ ext)), <- !app_assoc. simpl.
      rewrite Nat.add_1_r. reflexivity.
    + rewrite app_assoc. econstructor.
      * apply lookup_alloc2.
      * apply lookup_alloc2.
      * eapply Forall2_impl; [exact Hcopies|]. intros e c Hc. apply reprL_extend, Hc.
Qed.

(** X18.  A call of [addChild] on the representation of a tree returns,
    for a recursion depth of the height of the tree, a new root that holds
    the tree with the new member added; it writes to no cell that existed
    before, so the previous root still holds the previous tree and the new
    member is unchanged. *)
Theorem addChild_h_builds_a_new_tree parentId newMember t fuel h l ln :
  reprL h l t -> reprL h ln newMember -> height t <= fuel ->
  exists l' h',
    addChild_h fuel parentId ln l h = Some (l', h')
    /\ (forall k c, h !! k = Some c -> h' !! k = Some c)
    /\ reprL h' l' (addChild parentId newMember t)
    /\ reprL h' l t
    /\ reprL h' ln newMember
    /\ h !! l' = None.
Proof.
  intros Hrep Hnew Hfuel.
  destruct (addChild_h_correct parentId newMember t fuel h l ln Hrep Hnew Hfuel)
    as (ext & l' & Hrun & Hp & Hfresh).
  exists l', (h ++ ext).
  split; [exact Hrun|].
  split; [intros k c Hk; apply lookup_app_l_Some, Hk|].
  split; [exact Hp|].
  split; [apply reprL_extend, Hrep|].
  split; [apply reprL_extend, Hnew|].
  apply lookup_ge_None_2, Hfresh.
Qed.

Lemma addChild_h_builds_a_new_tree_witness :
  exists l' h',
    addChild_h 3 "a" exampleNew exampleRoot exampleHeapNew = Some (l', h')
    /\ (forall k c, exampleHeapNew !! k = Some c -> h' !! k = Some c)
    /\ reprL h' l' (addChild "a" (leafMember "n" "new") grandchildTree)
    /\ reprL h' exampleRoot grandchildTree
    /\ reprL h' exampleNew (leafMember "n" "new")
    /\ exampleHeapNew !! l' = None.
Proof.
  apply (addChild_h_builds_a_new_tree "a" (leafMember "n" "new") grandchildTree 3
           exampleHeapNew exampleRoot exampleNew).
  - vm_compute. repeat (econstructor; try reflexivity).
  - vm_compute. repeat (econstructor; try reflexivity).
  - vm_compute. lia.
Defined.

(** * [getTreeBounds] with a given accumulator *)

Local Open Scope Q_scope.

Lemma num_le_refl a : num_le a a.
Proof. destruct a; simpl; auto. lra. Qed.

Lemma num_le_trans a b c : num_le a b -> num_le b c -> num_le a c.
Proof. destruct a, b, c; simpl; auto; try contradiction. lra. Qed.

Lemma Math_min_le a b : num_le (Math_min a b) a /\ num_le (Math_min a b) b.
Proof.
  destruct a as [|p|], b as [|q|]; simpl; auto; try (split; auto; lra).
  split; [apply Q.le_min_l|apply Q.le_min_r].
Qed.

Lemma Math_max_ge a b : num_le a (Math_max a b) /\ num_le b (Math_max a b).
Proof.
  destruct a as [|p|], b as [|q|]; simpl; auto; try (split; auto; lra).
  split; [apply Q.le_max_l|apply Q.le_max_r].
Qed.

Lemma box_within_trans a b c : box_within a b -> box_within b c -> box_within a c.
Proof.
  intros (H1 & H2 & H3 & H4) (K1 & K2 & K3 & K4).
  repeat split; eapply num_le_trans; eassumption.
Qed.

Lemma footprint_within_mono n a b :
  footprint_within n a -> box_within a b -> footprint_within n b.
Proof.
  intros (H1 & H2 & H3 & H4) (K1 & K2 & K3 & K4).
  repeat split; eapply num_le_trans; eassumption.
Qed.

Lemma extend_within bounds n :
  box_within bounds (extend bounds n) /\ footprint_within n (extend bounds n).
Proof.
  unfold box_within, footprint_within, extend. cbn [minX maxX minY maxY].
  repeat split;
    first [apply Math_min_le | apply Math_max_ge].
Qed.

Lemma fold_extend_within l : forall bounds,
  box_within bounds (fold_left extend l bounds)
  /\ forall n, In n l -> footprint_within n (fold_left extend l bounds).
Proof.
  induction l as [|m l IH]; intros bounds.
  - split; [repeat split; apply num_le_refl|intros n []].
  - simpl. destruct (IH (extend bounds m)) as [Hbox Hall].
    destruct (extend_within bounds m) as [Hb Hm].
    split; [eapply box_within_trans; eassumption|].
    intros n [<-|Hn]; [eapply footprint_within_mono; eassumption|apply Hall, Hn].
Qed.

(** X19.  Called with any accumulator, also one with infinite sides,
    [getTreeBounds] returns a box that contains the accumulator it was given
    and the footprint of every node of the tree: a box is only ever
    enlarged, so calls on several trees can share one accumulator. *)
Theorem getTreeBounds_enlarges (p : PositionedNode) (bounds : Bounds) :
  box_within bounds (getTreeBounds p bounds)
  /\ forall n, In n (nodes p) -> footprint_within n (getTreeBounds p bounds).
Proof. rewrite getTreeBounds_nodes. apply fold_extend_within. Qed.

Lemma getTreeBounds_enlarges_witness :
  footprint_within firstChild (getTreeBounds twoChildrenLayout defaultBounds).
Proof.
  apply (proj2 (getTreeBounds_enlarges twoChildrenLayout defaultBounds) firstChild).
  vm_compute. right. left. reflexivity.
Defined.
